(** * Lorenz attractor background: a shallow embedding of
      [js/lorenz-background.js] and the properties of its simulation core.

    Conventions of the embedding.

    - A JavaScript number is a real number ([R]): arithmetic is exact, there
      is no rounding, no NaN and no infinity.  [undefined] is written
      [None] where the program can meet it (the first call [render()]).
    - The 32-bit integers produced by the bitwise operators are integers
      ([Z]) with the wrap-around of ToInt32 written out.
    - [Math.random] is a stream [random : nat -> R] read through a cursor
      that every draw advances.
    - Objects mutated in place (particles, the opacity array, the spatial
      hash, the neighbour buffer) are passed and returned explicitly; the
      opacity array holds reals, the rounding of its 32-bit floats is left
      out with all other rounding.
    - The canvas is a log of drawing commands. *)

From Stdlib Require Import ZArith Reals Lra Lia Psatz.
From stdpp Require Import gmap list.

(** ** 32-bit integer operators *)

Module Int32.

(** ToInt32 on an integer: reduction modulo 2^32 into [-2^31, 2^31). *)
Definition wrap (n : Z) : Z := ((n + 2 ^ 31) mod 2 ^ 32 - 2 ^ 31)%Z.

(** Truncation of a real towards zero (the first step of ToInt32). *)
Definition trunc (r : R) : Z :=
  if Rle_dec 0 r then Int_part r else (- Int_part (- r))%Z.

(** ToInt32 on a number. *)
Definition toInt32 (r : R) : Z := wrap (trunc r).

(** [r | 0] *)
Definition or0 (r : R) : Z := Z.lor (toInt32 r) (wrap 0).

(** [a << n] for integer [a] and a shift count [0 <= n < 32]. *)
Definition shl (a n : Z) : Z := wrap (Z.shiftl (wrap a) n).

(** [a | b] for integers. *)
Definition or (a b : Z) : Z := Z.lor (wrap a) (wrap b).

(** [a & b] for integers. *)
Definition and (a b : Z) : Z := Z.land (wrap a) (wrap b).

End Int32.

(** [a % 1] on numbers: the remainder has the sign of the dividend. *)
Definition rem1 (a : R) : R := (a - IZR (Int32.trunc a))%R.

(** ** Configuration *)

Module CONFIG.
Definition sigma : R := 10.
Definition rho : R := 28.
Definition beta : R := 8 / 3.
Definition dt : R := 0.003.
Definition particleCount : nat := 80.
Definition particleMinSize : R := 1.
Definition particleMaxSize : R := 3.5.
Definition noiseAmplitude : R := 200.
Definition noiseSpeed : R := 0.0006.
Definition noiseScale : R := 0.5.
Definition lorenzInfluence : R := 0.3.
Definition connectionDistance : R := 70.
Definition connectionDistanceSq : R := 4900.
Definition marginPercent : R := 0.32.
Definition fadeZonePercent : R := 0.10.
Definition bgA : R := 0.03.
End CONFIG.

Definition TARGET_FPS : R := 30.
Definition FRAME_INTERVAL : R := 1000 / TARGET_FPS.
Definition cellSize : R := CONFIG.connectionDistance.

(** ** Spatial hash keys *)

(** [(cellX << 16) | (cellY & 0xFFFF)] *)
Definition cellKey (cellX cellY : Z) : Z :=
  Int32.or (Int32.shl cellX 16) (Int32.and cellY 65535).

(** [(s / cellSize) | 0] *)
Definition cellOf (s : R) : Z := Int32.or0 (s / cellSize).


(** ** Comparisons of numbers as booleans *)

Definition Rltb (a b : R) : bool := if Rlt_dec a b then true else false.

(** A number that may be [undefined] or NaN ([None]): every comparison
    with it is false, every arithmetic result is NaN again. *)
Definition ltU (a : option R) (b : R) : bool :=
  match a with Some a' => Rltb a' b | None => false end.
Definition gtU (a : option R) (b : R) : bool :=
  match a with Some a' => Rltb b a' | None => false end.

(** ** Data model *)

Inductive ColorType := grey | terracotta.

Module Particle.
Record t := mk {
  x : R;
  y : R;
  z : R;
  screenX : R;
  screenY : R;
  noiseSeedX : R;
  noiseSeedY : R;
  size : R;
  brightness : R;
  colorType : ColorType;
  side : Z;
  depthScale : R
}.

Definition setXYZ (p : t) (x' y' z' : R) : t :=
  mk x' y' z' (screenX p) (screenY p) (noiseSeedX p) (noiseSeedY p)
     (size p) (brightness p) (colorType p) (side p) (depthScale p).

Definition setScreen (p : t) (sx sy ds : R) : t :=
  mk (x p) (y p) (z p) sx sy (noiseSeedX p) (noiseSeedY p)
     (size p) (brightness p) (colorType p) (side p) ds.
End Particle.

(** The surface dimensions and the cached margin geometry. *)
Record Canvas := mkCanvas {
  width : R;
  height : R;
  centerX : R;
  marginWidth : R;
  fadeZone : R;
  marginInnerEdge : R
}.

(** A line of the connection pass: the two particle indices and the alpha
    of the stroke. *)
Record Line := mkLine { line_i : nat; line_j : nat; line_alpha : R }.

(** The drawing commands sent to the 2D context. *)
Inductive DrawCmd :=
| FillRect (alpha x y w h : R)
| Stroke (alpha x1 y1 x2 y2 : R)
| DrawImage (sprite : ColorType) (alpha x y w h : R).

Record State := mkState {
  particles : list Particle.t;
  opacities : list R;
  canvas : Canvas;
  isVisible : bool;
  time : R;
  lastFrameTime : option R;
  spatialHash : gmap Z (list nat);
  cursor : nat;          (* position in the stream of [Math.random] *)
  animationRequests : nat  (* calls of [requestAnimationFrame] so far *)
}.

Section Simulation.
Local Open Scope R_scope.

(** The values [Math.random] returns, in order. *)
Variable random : nat -> R.

(** *** Noise *)

Definition smoothNoise (x y t : R) : R :=
  sin (x * 1.3 + t) * cos (y * 0.9 + t * 0.7) * 0.5 +
  sin (x * 2.1 - t * 0.5) * sin (y * 1.7 + t * 0.3) * 0.3 +
  cos (x * 0.8 + y * 1.1 + t * 0.9) * 0.2.

(** *** Canvas geometry (the cached part of [initCanvas]) *)

Definition initCanvas (innerWidth innerHeight : R) : Canvas :=
  let width := innerWidth in
  let height := innerHeight in
  let centerX := width / 2 in
  let marginWidth := width * CONFIG.marginPercent in
  let fadeZone := width * CONFIG.fadeZonePercent in
  let marginInnerEdge := centerX - marginWidth in
  mkCanvas width height centerX marginWidth fadeZone marginInnerEdge.

(** *** Particles *)

Definition createParticle (side : Z) (k : nat) : Particle.t * nat :=
  (Particle.mk
     ((random k - 0.5) * 30)
     ((random (k + 1) - 0.5) * 30)
     (random (k + 2) * 30 + 10)
     0
     0
     (random (k + 3) * 100)
     (random (k + 4) * 100)
     (CONFIG.particleMinSize +
      random (k + 5) * (CONFIG.particleMaxSize - CONFIG.particleMinSize))
     (0.4 + random (k + 6) * 0.6)
     (if Rltb (random (k + 7)) 0.9 then grey else terracotta)
     side
     1,
   (k + 8)%nat).

Fixpoint createParticles (side : Z) (n k : nat) : list Particle.t * nat :=
  match n with
  | O => ([], k)
  | S n' =>
      let '(p, k1) := createParticle side k in
      let '(ps, k2) := createParticles side n' k1 in
      (p :: ps, k2)
  end.

Definition initParticles (k : nat) : list Particle.t * list R * nat :=
  let count := CONFIG.particleCount in
  let halfCount := Nat.shiftr count 1 in
  let '(lefts, k1) := createParticles 0 halfCount k in
  let '(rights, k2) := createParticles 1 (count - halfCount) k1 in
  (lefts ++ rights, replicate count 0, k2).

(** *** Lorenz integrator *)

(** The three increments and their addition (the code before the bounds
    check). *)
Definition eulerStep (p : Particle.t) : Particle.t :=
  let dx := 10 * (Particle.y p - Particle.x p) * 0.003 in
  let dy := (Particle.x p * (28 - Particle.z p) - Particle.y p) * 0.003 in
  let dz := (Particle.x p * Particle.y p - 2.6667 * Particle.z p) * 0.003 in
  Particle.setXYZ p (Particle.x p + dx) (Particle.y p + dy) (Particle.z p + dz).

Definition outOfBounds (p : Particle.t) : bool :=
  Rltb (Particle.x p) (-50) || Rltb 50 (Particle.x p) ||
  Rltb (Particle.y p) (-50) || Rltb 50 (Particle.y p) ||
  Rltb 80 (Particle.z p) || Rltb (Particle.z p) 0.

Definition updateLorenz (p : Particle.t) (k : nat) : Particle.t * nat :=
  let p' := eulerStep p in
  if outOfBounds p' then
    (Particle.setXYZ p'
       ((random k - 0.5) * 20)
       ((random (k + 1) - 0.5) * 20)
       (random (k + 2) * 20 + 15),
     (k + 3)%nat)
  else (p', k).

(** *** Screen projector *)

Definition normX (p : Particle.t) : R := (Particle.x p + 25) * 0.02.
Definition normY (p : Particle.t) : R := (Particle.y p + 25) * 0.02.
Definition normZ (p : Particle.t) : R := Particle.z p * 0.02.

Definition noiseX (time : R) (p : Particle.t) : R :=
  smoothNoise (Particle.noiseSeedX p * 0.5) (Particle.noiseSeedY p * 0.5) time.
Definition noiseY (time : R) (p : Particle.t) : R :=
  smoothNoise (Particle.noiseSeedY p * 0.5 + 50)
              (Particle.noiseSeedX p * 0.5 + 50) (time * 0.8).

Definition blendedX (p : Particle.t) : R :=
  rem1 (Particle.noiseSeedX p) * 0.7 + normX p * 0.3.
Definition blendedY (p : Particle.t) : R :=
  rem1 (Particle.noiseSeedY p) * 0.7 + normY p * 0.3.

Definition finalX (time : R) (p : Particle.t) : R :=
  blendedX p + noiseX time p * 0.15.
Definition finalY (time : R) (p : Particle.t) : R :=
  blendedY p + noiseY time p * 0.2.

Definition projectX (g : Canvas) (time : R) (p : Particle.t) : R :=
  if (Particle.side p =? 0)%Z then
    let sx := finalX time p * marginWidth g * 1.2 in
    if Rltb sx (-20) then -20
    else if Rltb (marginWidth g + width g * 0.08) sx
         then marginWidth g + width g * 0.08
         else sx
  else
    let sx := width g - marginWidth g - width g * 0.08
              + finalX time p * marginWidth g * 1.2 in
    if Rltb (width g + 20) sx then width g + 20
    else if Rltb sx (width g - marginWidth g - width g * 0.08)
         then width g - marginWidth g - width g * 0.08
         else sx.

Definition projectY (g : Canvas) (time : R) (p : Particle.t) : R :=
  let padding := height g * 0.02 in
  let sy := padding + finalY time p * (height g - padding * 2) in
  if Rltb sy (-20) then -20
  else if Rltb (height g + 20) sy then height g + 20
  else sy.

Definition projectToScreen (g : Canvas) (time : R) (p : Particle.t)
  : Particle.t :=
  Particle.setScreen p (projectX g time p) (projectY g time p)
                     (0.7 + normZ p * 0.3).

(** *** Opacity mask *)

Definition calculateOpacity (g : Canvas) (screenX : R) : R :=
  let distFromCenter :=
    if Rltb (centerX g) screenX then screenX - centerX g
    else centerX g - screenX in
  if Rltb distFromCenter (marginInnerEdge g) then 0
  else
    let posInMargin := distFromCenter - marginInnerEdge g in
    if Rltb posInMargin (fadeZone g) then posInMargin / fadeZone g
    else 1.

(** *** Spatial hash *)

Definition keyOf (p : Particle.t) : Z :=
  cellKey (cellOf (Particle.screenX p)) (cellOf (Particle.screenY p)).

(** One iteration of the loop of [buildSpatialHash]: [cell.push(i)] on
    the cell stored under the key, created when absent. *)
Definition hashPush (h : gmap Z (list nat)) (i : nat) (p : Particle.t)
  : gmap Z (list nat) :=
  match h !! keyOf p with
  | None => <[keyOf p := [i]]> h
  | Some cell => <[keyOf p := cell ++ [i]]> h
  end.

Fixpoint buildFrom (i : nat) (ps : list Particle.t) (h : gmap Z (list nat))
  : gmap Z (list nat) :=
  match ps with
  | [] => h
  | p :: rest => buildFrom (S i) rest (hashPush h i p)
  end.

Definition buildSpatialHash (ps : list Particle.t) : gmap Z (list nat) :=
  buildFrom 0 ps ∅.

(** The indices stored under a key; none when [get] returns
    [undefined]. *)
Definition bucket (h : gmap Z (list nat)) (key : Z) : list nat :=
  match h !! key with
  | Some cell => cell
  | None => []
  end.

Definition cellAt (h : gmap Z (list nat)) (cx cy : Z) : list nat :=
  bucket h (cellKey cx cy).

Definition getNearbyParticles (h : gmap Z (list nat)) (p : Particle.t)
  : list nat :=
  let cellX := cellOf (Particle.screenX p) in
  let cellY := cellOf (Particle.screenY p) in
  flat_map (fun dx : Z =>
    flat_map (fun dy : Z => cellAt h (cellX + dx) (cellY + dy))
             [-1; 0; 1]%Z)
           [-1; 0; 1]%Z.

(** *** Connection pass *)

Definition distSq (p1 p2 : Particle.t) : R :=
  let dx := Particle.screenX p2 - Particle.screenX p1 in
  let dy := Particle.screenY p2 - Particle.screenY p1 in
  dx * dx + dy * dy.

(** [(1 - dist / 70) * 0.25 * Math.min(opacity1, opacity2)]; NaN when an
    opacity is undefined. *)
Definition lineAlpha (p1 p2 : Particle.t) (opacity1 opacity2 : option R)
  : option R :=
  match opacity1, opacity2 with
  | Some o1, Some o2 =>
      let dist := sqrt (distSq p1 p2) in
      Some ((1 - dist / CONFIG.connectionDistance) * 0.25 * Rmin o1 o2)
  | _, _ => None
  end.

(** The body of the inner loop for the neighbour [j]: the lines it
    strokes, or [None] when it throws (reading [side] of an undefined
    particle). *)
Definition connect (ps : list Particle.t) (ops : list R)
           (i : nat) (p1 : Particle.t) (opacity1 : option R) (j : nat)
  : option (list Line) :=
  if (j <=? i)%nat then Some []
  else
    match ps !! j with
    | None => None
    | Some p2 =>
        if negb (Particle.side p1 =? Particle.side p2)%Z then Some []
        else
          let opacity2 := ops !! j in
          if ltU opacity2 0.01 then Some []
          else if Rltb (distSq p1 p2) CONFIG.connectionDistanceSq then
            match lineAlpha p1 p2 opacity1 opacity2 with
            | Some alpha =>
                if Rltb 0.01 alpha then Some [mkLine i j alpha] else Some []
            | None => Some []
            end
          else Some []
    end.

Fixpoint connectAll (ps : list Particle.t) (ops : list R)
         (i : nat) (p1 : Particle.t) (opacity1 : option R)
         (nearby : list nat) : option (list Line) :=
  match nearby with
  | [] => Some []
  | j :: rest =>
      ls ← connect ps ops i p1 opacity1 j;
      ls' ← connectAll ps ops i p1 opacity1 rest;
      Some (ls ++ ls')
  end.

(** The body of the outer loop for the particle [i]. *)
Definition connectionsOf (ps : list Particle.t) (ops : list R)
           (h : gmap Z (list nat)) (i : nat) (p1 : Particle.t)
  : option (list Line) :=
  let opacity1 := ops !! i in
  if ltU opacity1 0.01 then Some []
  else connectAll ps ops i p1 opacity1 (getNearbyParticles h p1).

Fixpoint connectionsFrom (ps : list Particle.t) (ops : list R)
         (h : gmap Z (list nat)) (i : nat) (todo : list Particle.t)
  : option (list Line) :=
  match todo with
  | [] => Some []
  | p1 :: rest =>
      ls ← connectionsOf ps ops h i p1;
      ls' ← connectionsFrom ps ops h (S i) rest;
      Some (ls ++ ls')
  end.

Definition drawConnections (ps : list Particle.t) (ops : list R)
           (h : gmap Z (list nat)) : option (list Line) :=
  connectionsFrom ps ops h 0 ps.

(** The stroke a line of the connection pass sends to the context:
    [moveTo(p1)], [lineTo(p2)], [stroke()] with the line's alpha. *)
Definition strokeOf (ps : list Particle.t) (l : Line) : list DrawCmd :=
  match ps !! line_i l, ps !! line_j l with
  | Some p1, Some p2 =>
      [Stroke (line_alpha l)
              (Particle.screenX p1) (Particle.screenY p1)
              (Particle.screenX p2) (Particle.screenY p2)]
  | _, _ => []
  end.

(** *** Particle pass *)

Definition drawParticle (p : Particle.t) (opacity : R) : DrawCmd :=
  let size := Particle.size p * Particle.depthScale p * 4 in
  let finalOpacity := opacity * Particle.brightness p in
  DrawImage (Particle.colorType p) finalOpacity
            (Particle.screenX p - size) (Particle.screenY p - size)
            (size * 2) (size * 2).

Fixpoint drawParticlesFrom (ops : list R) (i : nat)
         (todo : list Particle.t) : list DrawCmd :=
  match todo with
  | [] => []
  | p :: rest =>
      (if gtU (ops !! i) 0.01
       then match ops !! i with
            | Some o => [drawParticle p o]
            | None => []
            end
       else [])
      ++ drawParticlesFrom ops (S i) rest
  end.

(** *** Frame *)

(** The first loop of an active frame: integrate, project and store the
    opacity of every particle, in index order.  A typed array ignores a
    write past its end, as the list update does. *)
Fixpoint updateParticles (g : Canvas) (time : R) (i : nat)
         (todo : list Particle.t) (ops : list R) (k : nat)
  : list Particle.t * list R * nat :=
  match todo with
  | [] => ([], ops, k)
  | p :: rest =>
      let '(p1, k1) := updateLorenz p k in
      let p2 := projectToScreen g time p1 in
      let ops1 := <[i := calculateOpacity g (Particle.screenX p2)]> ops in
      let '(rest', ops2, k2) := updateParticles g time (S i) rest ops1 k1 in
      (p2 :: rest', ops2, k2)
  end.

(** [currentTime - lastFrameTime < FRAME_INTERVAL]; false when either
    operand is undefined. *)
Definition throttled (currentTime lastFrameTime : option R) : bool :=
  match currentTime, lastFrameTime with
  | Some c, Some l => Rltb (c - l) FRAME_INTERVAL
  | _, _ => false
  end.

Definition reschedule (st : State) : State :=
  mkState (particles st) (opacities st) (canvas st) (isVisible st)
          (time st) (lastFrameTime st) (spatialHash st) (cursor st)
          (S (animationRequests st)).

(** One call of [render]: the next state and the commands drawn, or
    [None] when the call throws. *)
Definition render (st : State) (currentTime : option R)
  : option (State * list DrawCmd) :=
  if negb (isVisible st) then Some (reschedule st, [])
  else if throttled currentTime (lastFrameTime st)
  then Some (reschedule st, [])
  else
    let lastFrameTime' := currentTime in
    let time' := time st + CONFIG.noiseSpeed in
    let g := canvas st in
    let clear := FillRect CONFIG.bgA 0 0 (width g) (height g) in
    let '(ps, ops, k) :=
      updateParticles g time' 0 (particles st) (opacities st) (cursor st) in
    let h := buildSpatialHash ps in
    lines ← drawConnections ps ops h;
    Some (mkState ps ops g (isVisible st) time' lastFrameTime' h k
                  (S (animationRequests st)),
          clear :: flat_map (strokeOf ps) lines
                ++ drawParticlesFrom ops 0 ps).

(** *** Lifecycle *)

Definition handleResize (st : State) (innerWidth innerHeight : R) : State :=
  mkState (particles st) (opacities st) (initCanvas innerWidth innerHeight)
          (isVisible st) (time st) (lastFrameTime st) (spatialHash st)
          (cursor st) (animationRequests st).

Definition handleVisibilityChange (st : State) (hidden : bool) : State :=
  mkState (particles st) (opacities st) (canvas st) (negb hidden)
          (time st) (lastFrameTime st) (spatialHash st) (cursor st)
          (animationRequests st).

(** [init]: the state before the first call [render()], which passes no
    timestamp. *)
Definition initialState (innerWidth innerHeight : R) : State :=
  let '(ps, ops, k) := initParticles 0 in
  mkState ps ops (initCanvas innerWidth innerHeight) true 0 (Some 0) ∅ k 0.

Definition init (innerWidth innerHeight : R)
  : option (State * list DrawCmd) :=
  render (initialState innerWidth innerHeight) None.

(** A sequence of calls of [render], one per timestamp. *)
Fixpoint ticks (st : State) (stamps : list (option R)) : option State :=
  match stamps with
  | [] => Some st
  | t :: rest => r ← render st t; ticks (fst r) rest
  end.

(** [n] calls of [updateLorenz] on one particle. *)
Fixpoint iterLorenz (n : nat) (p : Particle.t) (k : nat) : Particle.t * nat :=
  match n with
  | O => (p, k)
  | S n' => let '(p', k') := updateLorenz p k in iterLorenz n' p' k'
  end.

End Simulation.

(** ** Vocabulary of the properties *)

Section Vocabulary.
Local Open Scope R_scope.

(** The reseed bounds of the integrator. *)
Definition inBounds (p : Particle.t) : Prop :=
  -50 <= Particle.x p <= 50 /\
  -50 <= Particle.y p <= 50 /\
  0 <= Particle.z p <= 80.

(** The box a reseeded particle is drawn from. *)
Definition inSeedBox (p : Particle.t) : Prop :=
  -10 <= Particle.x p <= 10 /\
  -10 <= Particle.y p <= 10 /\
  15 <= Particle.z p <= 35.

(** The explicit Euler step of the Lorenz equations as the
    specification words it: with the parameters and the step of
    [CONFIG] (sigma = 10, rho = 28, beta = 8/3, dt = 0.003). *)
Definition canonicalEulerStep (p : Particle.t) : Particle.t :=
  let dx := CONFIG.sigma * (Particle.y p - Particle.x p) * CONFIG.dt in
  let dy := (Particle.x p * (CONFIG.rho - Particle.z p) - Particle.y p)
            * CONFIG.dt in
  let dz := (Particle.x p * Particle.y p - CONFIG.beta * Particle.z p)
            * CONFIG.dt in
  Particle.setXYZ p (Particle.x p + dx) (Particle.y p + dy) (Particle.z p + dz).

(** Horizontal distance of a screen position from the center line. *)
Definition distFromCenter (g : Canvas) (screenX : R) : R :=
  Rabs (screenX - centerX g).

(** Euclidean distance of two particles on the screen. *)
Definition screenDistance (p1 p2 : Particle.t) : R := sqrt (distSq p1 p2).

(** A particle of a given side at a given screen position. *)
Definition particleAt (side : Z) (sx sy : R) : Particle.t :=
  Particle.mk 0 0 20 sx sy 0 0 1 1 grey side 1.

(** The conditions under which the connection pass strokes the line
    from particle [i] (which is [p1]) to particle [j] with alpha [a]. *)
Definition connects (ps : list Particle.t) (ops : list R)
           (i : nat) (p1 : Particle.t) (j : nat) (a : R) : Prop :=
  exists p2 o1 o2,
    ps !! j = Some p2 /\ ops !! i = Some o1 /\ ops !! j = Some o2 /\
    (i < j)%nat /\
    Particle.side p1 = Particle.side p2 /\
    0.01 < o1 /\ 0.01 < o2 /\
    distSq p1 p2 < 4900 /\
    a = (1 - screenDistance p1 p2 / 70) * 0.25 * Rmin o1 o2 /\
    0.01 < a.

End Vocabulary.

(** ** Vocabulary of the frame properties *)

Section FrameVocabulary.
Local Open Scope R_scope.
Variable random : nat -> R.

(** What a particle keeps for its lifetime: side, colour, size,
    brightness and noise seeds. *)
Definition sameIdentity (p q : Particle.t) : Prop :=
  Particle.side p = Particle.side q /\
  Particle.colorType p = Particle.colorType q /\
  Particle.size p = Particle.size q /\
  Particle.brightness p = Particle.brightness q /\
  Particle.noiseSeedX p = Particle.noiseSeedX q /\
  Particle.noiseSeedY p = Particle.noiseSeedY q.

(** The ranges [createParticle] draws the fixed fields from. *)
Definition wellFormed (p : Particle.t) : Prop :=
  1 <= Particle.size p < 3.5 /\
  0.4 <= Particle.brightness p < 1 /\
  0 <= Particle.noiseSeedX p < 100 /\
  0 <= Particle.noiseSeedY p < 100 /\
  (Particle.side p = 0%Z \/ Particle.side p = 1%Z).

(** The band of a particle's side with its overscan. *)
Definition inBand (g : Canvas) (p : Particle.t) : Prop :=
  (Particle.side p = 0%Z ->
   -20 <= Particle.screenX p <= marginWidth g + width g * 0.08) /\
  (Particle.side p <> 0%Z ->
   width g - marginWidth g - width g * 0.08
     <= Particle.screenX p <= width g + 20) /\
  -20 <= Particle.screenY p <= height g + 20.

Definition isStroke (c : DrawCmd) : bool :=
  match c with Stroke _ _ _ _ _ => true | _ => false end.

Definition isImage (c : DrawCmd) : bool :=
  match c with DrawImage _ _ _ _ _ _ => true | _ => false end.

(** Whether a tick with this timestamp executes a frame. *)
Definition executes (st : State) (t : option R) : bool :=
  isVisible st && negb (throttled t (lastFrameTime st)).

(** The number of frames a sequence of ticks executes. *)
Fixpoint framesExecuted (st : State) (stamps : list (option R)) : nat :=
  match stamps with
  | [] => 0
  | t :: rest =>
      match render random st t with
      | Some (st', _) =>
          ((if executes st t then 1 else 0) + framesExecuted st' rest)%nat
      | None => 0
      end
  end.

(** The events the page sends to the effect. *)
Inductive Event :=
| Tick (t : option R)
| Resize (innerWidth innerHeight : R)
| Visibility (hidden : bool).

Definition handle (st : State) (e : Event) : option State :=
  match e with
  | Tick t => r ← render random st t; Some (fst r)
  | Resize w h => Some (handleResize st w h)
  | Visibility hidden => Some (handleVisibilityChange st hidden)
  end.

Fixpoint run (st : State) (events : list Event) : option State :=
  match events with
  | [] => Some st
  | e :: rest => st' ← handle st e; run st' rest
  end.

(** A state whose geometry comes from a surface of non-negative size and
    whose particles and opacities are in the ranges the code produces. *)
Definition healthy (st : State) : Prop :=
  (exists w h, 0 <= w /\ 0 <= h /\ canvas st = initCanvas w h) /\
  length (opacities st) = length (particles st) /\
  (forall p, In p (particles st) ->
             wellFormed p /\ inBounds p /\
             0.7 <= Particle.depthScale p <= 1.18) /\
  (forall o, In o (opacities st) -> 0 <= o <= 1).

(** The ranges of what is drawn: background alpha 0.03, line alpha in
    (0.01, 0.25], sprite alpha in (0.004, 1) on a square of side in
    [5.6, 33.04). *)
Definition cmdInRange (c : DrawCmd) : Prop :=
  match c with
  | FillRect a _ _ _ _ => a = 0.03
  | Stroke a _ _ _ _ => 0.01 < a <= 0.25
  | DrawImage _ a _ _ w h => 0.004 < a < 1 /\ w = h /\ 5.6 <= w < 33.04
  end.

Definition nonNegativeResizes (events : list Event) : Prop :=
  forall w h, In (Resize w h) events -> 0 <= w /\ 0 <= h.

End FrameVocabulary.

(** ** Lemmas on the integer operators *)

Section Int32Facts.
Local Open Scope Z_scope.

Local Ltac euclid := Z.to_euclidean_division_equations; lia.

Lemma wrap_range n : - 2 ^ 31 <= Int32.wrap n < 2 ^ 31.
Proof. unfold Int32.wrap. euclid. Qed.

Lemma wrap_small n : - 2 ^ 31 <= n < 2 ^ 31 -> Int32.wrap n = n.
Proof. unfold Int32.wrap. intros. euclid. Qed.

Lemma lor_high_low k b :
  0 <= b < 2 ^ 16 -> Z.lor (k * 2 ^ 16) b = k * 2 ^ 16 + b.
Proof.
  intros Hb.
  assert (Hdisj : Z.land (k * 2 ^ 16) b = 0).
  { apply Z.bits_inj'. intros i Hi.
    rewrite Z.land_spec, Z.bits_0, <- Z.shiftl_mul_pow2 by lia.
    destruct (Z.ltb_spec i 16) as [Hlt | Hge].
    - rewrite Z.shiftl_spec_low by lia. reflexivity.
    - replace b with (b mod 2 ^ 16) by (apply Z.mod_small; lia).
      rewrite Z.mod_pow2_bits_high by lia. apply andb_false_r. }
  rewrite <- Z.lxor_lor by exact Hdisj.
  symmetry. apply Z.add_nocarry_lxor. exact Hdisj.
Qed.

Lemma shl16_closed a :
  Int32.shl a 16 = ((a + 2 ^ 15) mod 2 ^ 16 - 2 ^ 15) * 2 ^ 16.
Proof.
  unfold Int32.shl, Int32.wrap. rewrite Z.shiftl_mul_pow2 by lia. euclid.
Qed.

Lemma and_low16 b : Int32.and b 65535 = b mod 2 ^ 16.
Proof.
  unfold Int32.and. rewrite (wrap_small 65535) by lia.
  change 65535 with (Z.ones 16). rewrite Z.land_ones by lia.
  unfold Int32.wrap. euclid.
Qed.

(** The key keeps the low 16 bits of each cell coordinate and nothing
    else. *)
Lemma cellKey_closed cx cy :
  cellKey cx cy
  = ((cx + 2 ^ 15) mod 2 ^ 16 - 2 ^ 15) * 2 ^ 16 + cy mod 2 ^ 16.
Proof.
  unfold cellKey, Int32.or. rewrite shl16_closed, and_low16.
  assert (Hy : 0 <= cy mod 2 ^ 16 < 2 ^ 16) by (apply Z.mod_pos_bound; lia).
  assert (Hx : 0 <= (cx + 2 ^ 15) mod 2 ^ 16 < 2 ^ 16)
    by (apply Z.mod_pos_bound; lia).
  rewrite !wrap_small by lia.
  apply lor_high_low. exact Hy.
Qed.

Lemma cellKey_congr cx cy cx' cy' :
  cx mod 2 ^ 16 = cx' mod 2 ^ 16 ->
  cy mod 2 ^ 16 = cy' mod 2 ^ 16 ->
  cellKey cx cy = cellKey cx' cy'.
Proof.
  intros Hx Hy. rewrite !cellKey_closed, Hy.
  f_equal. f_equal. f_equal. euclid.
Qed.

Lemma cellKey_low16 cx cy cx' cy' :
  cellKey cx cy = cellKey cx' cy' ->
  cx mod 2 ^ 16 = cx' mod 2 ^ 16 /\ cy mod 2 ^ 16 = cy' mod 2 ^ 16.
Proof.
  rewrite !cellKey_closed. intros H. euclid.
Qed.

End Int32Facts.

(** ** Lemmas on comparisons and truncation *)

Section RealFacts.
Local Open Scope R_scope.

Lemma Rltb_true a b : Rltb a b = true <-> a < b.
Proof. unfold Rltb. destruct (Rlt_dec a b); split; intros; try easy. Qed.

Lemma Rltb_false a b : Rltb a b = false <-> b <= a.
Proof.
  unfold Rltb. destruct (Rlt_dec a b); split; intros; try easy; lra.
Qed.

(** Truncation towards zero brackets its argument on the side of zero. *)
Lemma trunc_spec r :
  (0 <= r /\ IZR (Int32.trunc r) <= r < IZR (Int32.trunc r) + 1) \/
  (r < 0 /\ r <= IZR (Int32.trunc r) < r + 1).
Proof.
  unfold Int32.trunc. destruct (Rle_dec 0 r) as [Hr | Hr].
  - left. destruct (base_Int_part r). lra.
  - right. destruct (base_Int_part (- r)). rewrite opp_IZR. lra.
Qed.

Lemma Rabs_bound a b : Rabs a <= b -> - b <= a <= b.
Proof. unfold Rabs. destruct (Rcase_abs a); lra. Qed.

(** Two numbers at most one apart truncate to integers at most one
    apart. *)
Lemma trunc_close a b :
  -1 <= b - a <= 1 -> (-1 <= Int32.trunc b - Int32.trunc a <= 1)%Z.
Proof.
  intros Hab.
  assert (Hlt : -2 < IZR (Int32.trunc b - Int32.trunc a) < 2).
  { rewrite minus_IZR.
    destruct (trunc_spec a) as [[A0 A] | [A0 A]];
      destruct (trunc_spec b) as [[B0 B] | [B0 B]]; lra. }
  destruct Hlt as [Hl Hu]. apply lt_IZR in Hl, Hu. lia.
Qed.

(** Truncation is determined by the bracket. *)
Lemma trunc_eq r z :
  (0 <= r /\ IZR z <= r < IZR z + 1) \/ (r < 0 /\ r <= IZR z < r + 1) ->
  Int32.trunc r = z.
Proof.
  intros Hz.
  assert (Hlt : -1 < IZR (Int32.trunc r - z) < 1).
  { rewrite minus_IZR.
    destruct (trunc_spec r) as [[R0 Ht] | [R0 Ht]];
      destruct Hz as [[Z0 Hz] | [Z0 Hz]]; lra. }
  destruct Hlt as [Hl Hu]. apply lt_IZR in Hl, Hu. lia.
Qed.

End RealFacts.

(** ** Lemmas on the spatial hash *)

Section HashFacts.
Implicit Types (h : gmap Z (list nat)) (ps : list Particle.t).

Lemma cellOf_wrap s : cellOf s = Int32.wrap (Int32.trunc (s / cellSize)).
Proof.
  unfold cellOf, Int32.or0, Int32.toInt32.
  change (Int32.wrap 0) with 0%Z. apply Z.lor_0_r.
Qed.

(** Coordinates at most one cell size apart fall in the same or in
    adjacent cells, and the key of the neighbour cell computed from one
    is the key stored for the other. *)
Lemma cellKey_near ax ay bx by_ :
  (Rabs (bx - ax) <= cellSize)%R -> (Rabs (by_ - ay) <= cellSize)%R ->
  exists dx dy : Z,
    (-1 <= dx <= 1)%Z /\ (-1 <= dy <= 1)%Z /\
    cellKey (cellOf ax + dx) (cellOf ay + dy)
    = cellKey (cellOf bx) (cellOf by_).
Proof.
  intros Hx Hy. apply Rabs_bound in Hx, Hy.
  unfold cellSize, CONFIG.connectionDistance in *.
  assert (Hdx := trunc_close (ax / 70) (bx / 70)).
  assert (Hdy := trunc_close (ay / 70) (by_ / 70)).
  exists (Int32.trunc (bx / 70) - Int32.trunc (ax / 70))%Z,
         (Int32.trunc (by_ / 70) - Int32.trunc (ay / 70))%Z.
  split; [apply Hdx; lra |]. split; [apply Hdy; lra |].
  rewrite !cellOf_wrap. unfold cellSize, CONFIG.connectionDistance.
  apply cellKey_congr; unfold Int32.wrap;
    Z.to_euclidean_division_equations; lia.
Qed.

Lemma bucket_empty key : bucket ∅ key = [].
Proof. unfold bucket. by rewrite lookup_empty. Qed.

Lemma bucket_hashPush h i p key x :
  In x (bucket (hashPush h i p) key) <->
  In x (bucket h key) \/ (x = i /\ key = keyOf p).
Proof.
  unfold hashPush, bucket.
  destruct (decide (keyOf p = key)) as [<- | Hne].
  - destruct (h !! keyOf p) as [cell |] eqn:E; rewrite lookup_insert_eq.
    + rewrite in_app_iff. simpl. intuition.
    + simpl. intuition.
  - destruct (h !! keyOf p) as [cell |] eqn:E;
      rewrite lookup_insert_ne by done; intuition congruence.
Qed.

Lemma bucket_buildFrom ps : forall i h key x,
  In x (bucket (buildFrom i ps h) key) <->
  In x (bucket h key) \/
  exists j p, ps !! j = Some p /\ x = (i + j)%nat /\ key = keyOf p.
Proof.
  induction ps as [| p rest IH]; intros i h key x; simpl.
  - split; [auto |]. intros [H | (j & p & H & _)]; [done |].
    by rewrite lookup_nil in H.
  - rewrite IH, bucket_hashPush. split.
    + intros [[H | [-> ->]] | (j & q & Hj & -> & ->)].
      * by left.
      * right. exists 0%nat, p. split; [done |]. split; [lia | done].
      * right. exists (S j), q. split; [done |]. split; [lia | done].
    + intros [H | (j & q & Hj & -> & ->)]; [by left; left |].
      destruct j as [| j]; simpl in Hj.
      * injection Hj as ->. left. right. split; [lia | done].
      * right. exists j, q. split; [done |]. split; [lia | done].
Qed.

(** After [buildSpatialHash] a bucket holds exactly the indices of the
    particles whose key it is. *)
Lemma bucket_buildSpatialHash ps key x :
  In x (bucket (buildSpatialHash ps) key) <->
  exists p, ps !! x = Some p /\ key = keyOf p.
Proof.
  unfold buildSpatialHash. rewrite bucket_buildFrom, bucket_empty. split.
  - intros [[] | (j & p & Hj & -> & ->)]. by exists p.
  - intros (p & Hx & ->). right. by exists x, p.
Qed.

Lemma in_getNearbyParticles h p x :
  In x (getNearbyParticles h p) <->
  exists dx dy : Z,
    (-1 <= dx <= 1)%Z /\ (-1 <= dy <= 1)%Z /\
    In x (cellAt h (cellOf (Particle.screenX p) + dx)
                   (cellOf (Particle.screenY p) + dy)).
Proof.
  unfold getNearbyParticles. rewrite in_flat_map. split.
  - intros (dx & Hdx & H). rewrite in_flat_map in H.
    destruct H as (dy & Hdy & H). exists dx, dy. simpl in Hdx, Hdy.
    repeat split; try done; lia.
  - intros (dx & dy & Hdx & Hdy & H). exists dx. split.
    + simpl. lia.
    + rewrite in_flat_map. exists dy. split; [simpl; lia | done].
Qed.

(** Every index the neighbour query returns on a freshly built hash is
    the index of a particle. *)
Lemma nearby_in_range ps p j :
  In j (getNearbyParticles (buildSpatialHash ps) p) -> is_Some (ps !! j).
Proof.
  rewrite in_getNearbyParticles. intros (dx & dy & _ & _ & H).
  unfold cellAt in H. rewrite bucket_buildSpatialHash in H.
  destruct H as (q & Hq & _). by exists q.
Qed.

(** The 3x3 query finds every particle at most one cell size away in
    each coordinate. *)
Lemma nearby_superset ps p j q :
  ps !! j = Some q ->
  (Rabs (Particle.screenX q - Particle.screenX p) <= cellSize)%R ->
  (Rabs (Particle.screenY q - Particle.screenY p) <= cellSize)%R ->
  In j (getNearbyParticles (buildSpatialHash ps) p).
Proof.
  intros Hq Hx Hy. rewrite in_getNearbyParticles.
  destruct (cellKey_near _ _ _ _ Hx Hy) as (dx & dy & Hdx & Hdy & Hkey).
  exists dx, dy. repeat split; try lia.
  unfold cellAt. rewrite bucket_buildSpatialHash. exists q. split; [done |].
  rewrite Hkey. reflexivity.
Qed.

(** *** No index is returned twice

    Every bucket of a freshly built hash lists its indices once, and the
    nine keys of a 3x3 query are pairwise different, so the query returns
    no index twice. *)

Lemma NoDup_snoc (l : list nat) (i : nat) :
  NoDup l -> (forall x, In x l -> (x < i)%nat) -> NoDup (l ++ [i]).
Proof.
  intros Hl Hlt. apply NoDup_app. split; [exact Hl |]. split.
  - intros x Hx Hi. apply list_elem_of_In in Hx. apply Hlt in Hx.
    apply list_elem_of_singleton in Hi. lia.
  - apply NoDup_singleton.
Qed.

Lemma NoDup_bucket_hashPush h i p :
  (forall key, NoDup (bucket h key)) ->
  (forall key x, In x (bucket h key) -> (x < i)%nat) ->
  forall key, NoDup (bucket (hashPush h i p) key).
Proof.
  intros Hnd Hlt key.
  pose proof (Hnd (keyOf p)) as Hk. pose proof (Hlt (keyOf p)) as Hb.
  pose proof (Hnd key) as Hkey.
  unfold hashPush, bucket in *.
  destruct (decide (keyOf p = key)) as [<- | Hne].
  - destruct (h !! keyOf p) as [cell |] eqn:E; rewrite lookup_insert_eq.
    + by apply NoDup_snoc.
    + apply NoDup_singleton.
  - destruct (h !! keyOf p) as [cell |] eqn:E;
      by rewrite lookup_insert_ne by done.
Qed.

Lemma NoDup_bucket_buildFrom ps : forall i h,
  (forall key, NoDup (bucket h key)) ->
  (forall key x, In x (bucket h key) -> (x < i)%nat) ->
  forall key, NoDup (bucket (buildFrom i ps h) key).
Proof.
  induction ps as [| p rest IH]; intros i h Hnd Hlt key; simpl; [apply Hnd |].
  apply IH.
  - by apply NoDup_bucket_hashPush.
  - intros key' x Hx. apply bucket_hashPush in Hx.
    destruct Hx as [Hx | [-> _]]; [| lia]. apply Hlt in Hx. lia.
Qed.

Lemma NoDup_bucket ps key : NoDup (bucket (buildSpatialHash ps) key).
Proof.
  apply NoDup_bucket_buildFrom.
  - intros k. rewrite bucket_empty. apply NoDup_nil_2.
  - intros k x. by rewrite bucket_empty.
Qed.

(** The nine cells around a cell have nine different keys, wherever the
    cell lies. *)
Lemma neighbour_keys_distinct cx cy dx dy dx' dy' :
  (-1 <= dx <= 1)%Z -> (-1 <= dy <= 1)%Z ->
  (-1 <= dx' <= 1)%Z -> (-1 <= dy' <= 1)%Z ->
  cellKey (cx + dx) (cy + dy) = cellKey (cx + dx') (cy + dy') ->
  dx = dx' /\ dy = dy'.
Proof.
  intros Hx Hy Hx' Hy' Hkey. apply cellKey_low16 in Hkey.
  destruct Hkey as [H1 H2].
  split; Z.to_euclidean_division_equations; lia.
Qed.

Lemma NoDup_flat_map {A B} (f : A -> list B) (l : list A) :
  NoDup l ->
  (forall a, In a l -> NoDup (f a)) ->
  (forall a b x, In a l -> In b l -> In x (f a) -> In x (f b) -> a = b) ->
  NoDup (flat_map f l).
Proof.
  induction l as [| a l IH]; intros Hl Hf Hinj; simpl; [apply NoDup_nil_2 |].
  apply NoDup_cons in Hl. destruct Hl as [Ha Hl].
  apply NoDup_app. split; [apply Hf; by left |]. split.
  - intros x Hx Hx'. apply list_elem_of_In in Hx, Hx'.
    apply in_flat_map in Hx'. destruct Hx' as (b & Hb & Hxb).
    assert (a = b) as ->.
    { apply (Hinj a b x); [by left | by right | done | done]. }
    apply Ha. by apply list_elem_of_In.
  - apply IH; [done | |].
    + intros b Hb. apply Hf. by right.
    + intros b c x Hb Hc. apply Hinj; by right.
Qed.

Lemma NoDup_offsets : NoDup [-1; 0; 1]%Z.
Proof. compute_done. Qed.

Lemma NoDup_getNearbyParticles ps p :
  NoDup (getNearbyParticles (buildSpatialHash ps) p).
Proof.
  assert (Hoff : forall d : Z, In d [-1; 0; 1]%Z -> (-1 <= d <= 1)%Z)
    by (intros d; simpl; lia).
  assert (Hkey : forall x cx cy cx' cy',
             In x (cellAt (buildSpatialHash ps) cx cy) ->
             In x (cellAt (buildSpatialHash ps) cx' cy') ->
             cellKey cx cy = cellKey cx' cy').
  { unfold cellAt. intros x cx cy cx' cy' H1 H2.
    apply bucket_buildSpatialHash in H1, H2.
    destruct H1 as (q & Hq & ->), H2 as (q' & Hq' & ->). congruence. }
  unfold getNearbyParticles.
  set (cx := cellOf (Particle.screenX p)).
  set (cy := cellOf (Particle.screenY p)).
  apply NoDup_flat_map; [apply NoDup_offsets | |].
  - intros dx Hdx. apply NoDup_flat_map; [apply NoDup_offsets | |].
    + intros dy Hdy. apply NoDup_bucket.
    + intros dy dy' x Hdy Hdy' H1 H2.
      destruct (neighbour_keys_distinct cx cy dx dy dx dy') as [_ Heq];
        auto.
      by apply (Hkey x).
  - intros dx dx' x Hdx Hdx' H1 H2.
    apply in_flat_map in H1, H2.
    destruct H1 as (dy & Hdy & H1), H2 as (dy' & Hdy' & H2).
    destruct (neighbour_keys_distinct cx cy dx dy dx' dy') as [Heq _];
      auto.
    by apply (Hkey x).
Qed.

End HashFacts.

(** ** The cells of concrete positions *)

Section Cells.
Local Open Scope R_scope.

(** The cell of a position, from the multiple of the cell size below it
    (above it when the position is negative). *)
Lemma cellOf_eq s z :
  (-2147483648 <= z < 2147483648)%Z ->
  (0 <= s /\ IZR z * 70 <= s < IZR z * 70 + 70)%R \/
  (s < 0 /\ s <= IZR z * 70 < s + 70)%R ->
  cellOf s = z.
Proof.
  intros Hz Hs. rewrite cellOf_wrap, (trunc_eq _ z).
  - apply wrap_small. lia.
  - unfold cellSize, CONFIG.connectionDistance.
    destruct Hs as [[H0 H] | [H0 H]]; [left | right]; split; try lra.
Qed.

(** Positions clamped by the projector fall in cells of the range on
    which the key separates: no cell is negative, since [| 0] truncates
    towards zero. *)
Lemma cellOf_clamped s :
  -20 <= s < 4587450 -> (0 <= cellOf s <= 65534)%Z.
Proof.
  intros Hs. rewrite cellOf_wrap.
  unfold cellSize, CONFIG.connectionDistance.
  assert (Ht : -1 < IZR (Int32.trunc (s / 70)) < 65535)
    by (destruct (trunc_spec (s / 70)) as [[H0 H] | [H0 H]]; lra).
  destruct Ht as [Hl Hu]. apply lt_IZR in Hl, Hu.
  rewrite wrap_small; lia.
Qed.

(** [| 0] is not a floor: -20 lies in cell 0. *)
Example cellOf_truncates :
  cellOf (-20) = 0%Z /\ cellOf (-70) = (-1)%Z /\ cellOf 69.5 = 0%Z /\
  cellOf 300 = 4%Z.
Proof.
  repeat split; apply cellOf_eq; try lia; lra.
Qed.

(** Three particles, one of them left of the surface: the hash built from
    them and two neighbour queries. *)
Example hash_three :
  let p0 := particleAt 0 (-20) 10 in
  let p1 := particleAt 0 40 80 in
  let p2 := particleAt 1 300 300 in
  let h := buildSpatialHash [p0; p1; p2] in
  h = {[ 0%Z := [0%nat]; 1%Z := [1%nat]; 262148%Z := [2%nat] ]} /\
  getNearbyParticles h p0 = [0%nat; 1%nat] /\
  getNearbyParticles h p2 = [2%nat].
Proof.
  intros p0 p1 p2 h.
  assert (C1 : cellOf (-20) = 0%Z) by (apply cellOf_eq; [lia | lra]).
  assert (C2 : cellOf 10 = 0%Z) by (apply cellOf_eq; [lia | lra]).
  assert (C3 : cellOf 40 = 0%Z) by (apply cellOf_eq; [lia | lra]).
  assert (C4 : cellOf 80 = 1%Z) by (apply cellOf_eq; [lia | lra]).
  assert (C5 : cellOf 300 = 4%Z) by (apply cellOf_eq; [lia | lra]).
  assert (Hh : h = {[ 0%Z := [0%nat]; 1%Z := [1%nat]; 262148%Z := [2%nat] ]}).
  { unfold h, buildSpatialHash. cbn [buildFrom].
    unfold hashPush, keyOf, p0, p1, p2, particleAt.
    cbn [Particle.screenX Particle.screenY].
    rewrite C1, C2, C3, C4, C5. vm_compute. reflexivity. }
  split; [exact Hh |].
  unfold getNearbyParticles, p0, p2, particleAt.
  cbn [Particle.screenX Particle.screenY].
  rewrite Hh, C1, C2, C5. split; vm_compute; reflexivity.
Qed.

End Cells.

(** ** The Lorenz integrator *)

Section Integrator.
Local Open Scope R_scope.
Variable random : nat -> R.

Lemma outOfBounds_false p : outOfBounds p = false <-> inBounds p.
Proof.
  unfold outOfBounds, inBounds.
  rewrite !orb_false_iff, !Rltb_false. intuition lra.
Qed.

Lemma reseed_in_box (r1 r2 r3 : R) p :
  0 <= r1 < 1 -> 0 <= r2 < 1 -> 0 <= r3 < 1 ->
  inSeedBox (Particle.setXYZ p ((r1 - 0.5) * 20) ((r2 - 0.5) * 20)
                             (r3 * 20 + 15)).
Proof. unfold inSeedBox. simpl. intros. lra. Qed.

Lemma seedBox_inBounds p : inSeedBox p -> inBounds p.
Proof. unfold inSeedBox, inBounds. intros. lra. Qed.

Lemma updateLorenz_inBounds p k :
  (forall n, 0 <= random n < 1) -> inBounds (fst (updateLorenz random p k)).
Proof.
  intros Hr. unfold updateLorenz.
  destruct (outOfBounds (eulerStep p)) eqn:E; simpl.
  - apply seedBox_inBounds, reseed_in_box; apply Hr.
  - by apply outOfBounds_false.
Qed.

Lemma createParticle_inBounds side k :
  (forall n, 0 <= random n < 1) ->
  inBounds (fst (createParticle random side k)).
Proof.
  intros Hr. unfold createParticle, inBounds. simpl.
  pose proof (Hr k). pose proof (Hr (k + 1)%nat). pose proof (Hr (k + 2)%nat).
  lra.
Qed.

Lemma iterLorenz_inBounds n : forall p k,
  (forall n, 0 <= random n < 1) ->
  inBounds p -> inBounds (fst (iterLorenz random n p k)).
Proof.
  induction n as [| n IH]; intros p k Hr Hp; simpl; [done |].
  destruct (updateLorenz random p k) as [p' k'] eqn:E.
  apply IH; [done |].
  change p' with (fst (p', k')). rewrite <- E.
  by apply updateLorenz_inBounds.
Qed.

(** A step that leaves the bounds: y passes 50, all three coordinates are
    drawn again and three random values are consumed. *)
Example updateLorenz_reseeds :
  let p := Particle.mk 49 60 79 7 8 0.5 0.25 2 1 grey 1 1 in
  let r := updateLorenz (fun _ => 1 / 2) p 5 in
  Particle.y (eulerStep p) = 52.323 /\
  snd r = 8%nat /\
  Particle.x (fst r) = 0 /\ Particle.y (fst r) = 0 /\
  Particle.z (fst r) = 25 /\
  Particle.screenX (fst r) = 7 /\ Particle.side (fst r) = 1%Z.
Proof.
  intros p r.
  assert (Hy : Particle.y (eulerStep p) = 52.323)
    by (unfold eulerStep, p; simpl; lra).
  assert (Hout : outOfBounds (eulerStep p) = true).
  { destruct (outOfBounds (eulerStep p)) eqn:E; [done |].
    apply outOfBounds_false in E. destruct E as (_ & E & _). lra. }
  unfold r, updateLorenz. rewrite Hout. simpl.
  repeat split; try done; lra.
Qed.

(** A step that stays inside: nothing is drawn. *)
Example updateLorenz_steps :
  let p := Particle.mk 1 2 20 7 8 0.5 0.25 2 1 grey 0 1 in
  let r := updateLorenz random p 5 in
  snd r = 5%nat /\
  Particle.x (fst r) = 1.03 /\ Particle.y (fst r) = 2.018 /\
  Particle.z (fst r) = 19.845998.
Proof.
  intros p r.
  assert (Hin : outOfBounds (eulerStep p) = false).
  { apply outOfBounds_false. unfold inBounds, eulerStep, p. simpl. lra. }
  unfold r, updateLorenz. rewrite Hin. unfold eulerStep, p. simpl.
  repeat split; lra.
Qed.

End Integrator.

Section IntegratorClaims.
Local Open Scope R_scope.

(** C1. One call of [updateLorenz] should first advance (x, y, z) by the
    explicit Euler step of the Lorenz equations with sigma = 10,
    rho = 28, beta = 8/3 and dt = 0.003.  The code's step agrees with it
    on x and on y, but its z increment is computed with the inlined
    constant 2.6667 in place of 8/3: the new z is short of the canonical
    one by z / 10^7.  On the particle [createParticle] makes when
    [Math.random] returns 0.5, which is (x, y, z) = (0, 0, 25), the
    canonical step gives z = 24.8 and the code gives z = 24.7999975, with
    no reseed. *)
Theorem eulerStep_beta_deviation :
  (forall p,
      Particle.x (eulerStep p) = Particle.x (canonicalEulerStep p) /\
      Particle.y (eulerStep p) = Particle.y (canonicalEulerStep p) /\
      Particle.z (eulerStep p)
      = Particle.z (canonicalEulerStep p) - Particle.z p / 10000000) /\
  (let p0 := fst (createParticle (fun _ => 1 / 2) 0 0) in
   (Particle.x p0 = 0 /\ Particle.y p0 = 0 /\ Particle.z p0 = 25) /\
   (forall random k, updateLorenz random p0 k = (eulerStep p0, k)) /\
   Particle.z (eulerStep p0) = 24.7999975 /\
   Particle.z (canonicalEulerStep p0) = 24.8 /\
   Particle.z (eulerStep p0) <> Particle.z (canonicalEulerStep p0)).
Proof.
  split.
  - intros p. unfold eulerStep, canonicalEulerStep,
      CONFIG.sigma, CONFIG.rho, CONFIG.beta, CONFIG.dt. simpl.
    repeat split; lra.
  - intros p0.
    assert (Hp0 : Particle.x p0 = 0 /\ Particle.y p0 = 0 /\ Particle.z p0 = 25)
      by (unfold p0, createParticle; simpl; repeat split; lra).
    destruct Hp0 as (Hx & Hy & Hz). clearbody p0.
    assert (Hin : outOfBounds (eulerStep p0) = false).
    { apply outOfBounds_false. unfold inBounds, eulerStep. simpl.
      rewrite Hx, Hy, Hz. lra. }
    split; [by repeat split |].
    split; [intros random k; unfold updateLorenz; by rewrite Hin |].
    unfold eulerStep, canonicalEulerStep,
      CONFIG.sigma, CONFIG.rho, CONFIG.beta, CONFIG.dt. simpl.
    rewrite Hx, Hy, Hz. repeat split; lra.
Qed.

(** C5. Immediately after [updateLorenz] returns the particle is within
    the reseed bounds: when the Euler step leaves them, the same call
    moves all three coordinates into the seed box, which lies inside the
    bounds; [createParticle] starts inside the bounds, so any number of
    integration steps from there stays inside.  [Math.random] returns
    values in [0, 1). *)
Theorem updateLorenz_bounds_invariant (random : nat -> R) :
  (forall n, 0 <= random n < 1) ->
  (forall p k, inBounds (fst (updateLorenz random p k))) /\
  (forall p k, outOfBounds (eulerStep p) = true ->
               inSeedBox (fst (updateLorenz random p k))) /\
  (forall p, inSeedBox p -> inBounds p) /\
  (forall side k n k',
      inBounds (fst (iterLorenz random n
                                (fst (createParticle random side k)) k'))).
Proof.
  intros Hr. split; [| split; [| split]].
  - intros p k. apply updateLorenz_inBounds, Hr.
  - intros p k Hout. unfold updateLorenz. rewrite Hout. simpl.
    apply reseed_in_box; apply Hr.
  - apply seedBox_inBounds.
  - intros side k n k'.
    apply iterLorenz_inBounds, createParticle_inBounds; done.
Qed.

End IntegratorClaims.

Lemma updateLorenz_bounds_invariant_witness :
  (forall n : nat, (0 <= (fun _ : nat => 1 / 2) n < 1)%R) /\
  inBounds (fst (updateLorenz (fun _ => (1 / 2)%R)
                              (Particle.mk 49 60 79 0 0 0 0 1 1 grey 0 1) 0)).
Proof.
  assert (Hr : forall n : nat, (0 <= (fun _ : nat => 1 / 2) n < 1)%R)
    by (intros; simpl; lra).
  split; [exact Hr |].
  exact (proj1 (updateLorenz_bounds_invariant _ Hr) _ 0%nat).
Defined.

(** ** The cell key *)

Section KeyClaims.
Local Open Scope Z_scope.

(** C3. The key [(cellX << 16) | (cellY & 0xFFFF)], with 32-bit signed
    operators, separates any two distinct cells whose coordinates lie in
    [-1, 65534], negative cells included. *)
Theorem cellKey_injective_visible cx1 cy1 cx2 cy2 :
  -1 <= cx1 <= 65534 -> -1 <= cy1 <= 65534 ->
  -1 <= cx2 <= 65534 -> -1 <= cy2 <= 65534 ->
  (cx1, cy1) <> (cx2, cy2) ->
  cellKey cx1 cy1 <> cellKey cx2 cy2.
Proof.
  intros Hx1 Hy1 Hx2 Hy2 Hne Hkey. apply Hne.
  apply cellKey_low16 in Hkey. destruct Hkey as [Hx Hy].
  f_equal; Z.to_euclidean_division_equations; lia.
Qed.

Lemma cellKey_injective_visible_witness :
  cellKey (-1) 65534 <> cellKey 65534 (-1).
Proof.
  apply cellKey_injective_visible; try lia. intros H. discriminate H.
Defined.

(** The range is as wide as the encoding allows: one cell further the
    key of column 65535 is the key of column -1. *)
Example cellKey_collision_outside : cellKey 65535 0 = cellKey (-1) 0.
Proof. reflexivity. Qed.

Example cellKey_negative : cellKey (-1) (-1) = -1.
Proof. reflexivity. Qed.

Example cellKey_small : cellKey 3 5 = 196613.
Proof. reflexivity. Qed.

End KeyClaims.

(** ** The opacity mask *)

Section Opacity.
Local Open Scope R_scope.

Lemma ramp_mono f a b : 0 < f -> a <= b -> a / f <= b / f.
Proof.
  intros Hf Hab. unfold Rdiv. apply Rmult_le_compat_r; [| exact Hab].
  left. by apply Rinv_0_lt_compat.
Qed.

Lemma ramp_range f a : 0 < f -> 0 <= a <= f -> 0 <= a / f <= 1.
Proof.
  intros Hf [H0 H1]. split.
  - replace 0 with (0 / f) by (unfold Rdiv; lra). by apply ramp_mono.
  - replace 1 with (f / f) by (field; lra). by apply ramp_mono.
Qed.

(** The three zones of the mask, by distance from the center line. *)
Lemma calculateOpacity_zones g s :
  let d := distFromCenter g s in
  (d < marginInnerEdge g /\ calculateOpacity g s = 0) \/
  (marginInnerEdge g <= d < marginInnerEdge g + fadeZone g /\
   calculateOpacity g s = (d - marginInnerEdge g) / fadeZone g) \/
  (marginInnerEdge g + fadeZone g <= d /\ calculateOpacity g s = 1).
Proof.
  unfold distFromCenter, calculateOpacity.
  assert (Hd : (if Rltb (centerX g) s then s - centerX g
                else centerX g - s) = Rabs (s - centerX g)).
  { unfold Rltb, Rabs.
    destruct (Rlt_dec (centerX g) s); destruct (Rcase_abs (s - centerX g));
      lra. }
  rewrite Hd. simpl.
  destruct (Rltb (Rabs (s - centerX g)) (marginInnerEdge g)) eqn:E1.
  - left. apply Rltb_true in E1. by split.
  - apply Rltb_false in E1.
    destruct (Rltb (Rabs (s - centerX g) - marginInnerEdge g) (fadeZone g))
      eqn:E2.
    + right; left. apply Rltb_true in E2. split; [lra | done].
    + right; right. apply Rltb_false in E2. split; [lra | done].
Qed.

Lemma initCanvas_geometry w h :
  0 < w ->
  marginInnerEdge (initCanvas w h) = w / 2 - 0.32 * w /\
  fadeZone (initCanvas w h) = 0.10 * w /\
  0 < marginInnerEdge (initCanvas w h) /\
  0 < fadeZone (initCanvas w h).
Proof.
  intros Hw. unfold initCanvas, CONFIG.marginPercent, CONFIG.fadeZonePercent.
  simpl. repeat split; lra.
Qed.

(** C4. With a positive fade zone (as for every positive width),
    [calculateOpacity] lies in [0, 1], does not decrease with the
    distance from the center line, is 0 up to and including the inner
    edge, ramps linearly across the fade zone and is 1 from inner edge +
    fade zone on; with inner edge 100 and fade zone 20 the distances 90,
    110 and 130 give 0, 0.5 and 1. *)
Theorem calculateOpacity_mask g :
  0 < fadeZone g ->
  (forall s, 0 <= calculateOpacity g s <= 1) /\
  (forall s1 s2, distFromCenter g s1 <= distFromCenter g s2 ->
                 calculateOpacity g s1 <= calculateOpacity g s2) /\
  (forall s, distFromCenter g s <= marginInnerEdge g ->
             calculateOpacity g s = 0) /\
  (forall s, marginInnerEdge g <= distFromCenter g s
               <= marginInnerEdge g + fadeZone g ->
             calculateOpacity g s
             = (distFromCenter g s - marginInnerEdge g) / fadeZone g) /\
  (forall s, marginInnerEdge g + fadeZone g <= distFromCenter g s ->
             calculateOpacity g s = 1) /\
  (marginInnerEdge g = 100 -> fadeZone g = 20 ->
   forall s,
     (distFromCenter g s = 90 -> calculateOpacity g s = 0) /\
     (distFromCenter g s = 110 -> calculateOpacity g s = 0.5) /\
     (distFromCenter g s = 130 -> calculateOpacity g s = 1)).
Proof.
  intros Hf.
  assert (Hrange : forall s, 0 <= calculateOpacity g s <= 1).
  { intros s.
    destruct (calculateOpacity_zones g s) as [[_ ->] | [[Hd ->] | [_ ->]]];
      try lra.
    apply ramp_range; lra. }
  assert (Hzero : forall s, distFromCenter g s <= marginInnerEdge g ->
                            calculateOpacity g s = 0).
  { intros s Hs.
    destruct (calculateOpacity_zones g s) as [[_ ->] | [[Hd ->] | [Hd _]]];
      try lra.
    replace (distFromCenter g s - marginInnerEdge g) with 0 by lra.
    unfold Rdiv. lra. }
  assert (Hramp : forall s,
             marginInnerEdge g <= distFromCenter g s
               <= marginInnerEdge g + fadeZone g ->
             calculateOpacity g s
             = (distFromCenter g s - marginInnerEdge g) / fadeZone g).
  { intros s Hs.
    destruct (calculateOpacity_zones g s) as [[Hd _] | [[Hd ->] | [Hd ->]]];
      try lra.
    replace (distFromCenter g s - marginInnerEdge g) with (fadeZone g)
      by lra.
    field. lra. }
  assert (Hone : forall s,
             marginInnerEdge g + fadeZone g <= distFromCenter g s ->
             calculateOpacity g s = 1).
  { intros s Hs.
    destruct (calculateOpacity_zones g s) as [[Hd _] | [[Hd _] | [_ ->]]];
      lra. }
  split; [exact Hrange |]. split; [| split; [exact Hzero |]].
  - intros s1 s2 Hle.
    destruct (calculateOpacity_zones g s1) as [[D1 E1] | [[D1 E1] | [D1 E1]]].
    + rewrite E1. apply Hrange.
    + destruct (calculateOpacity_zones g s2)
        as [[D2 E2] | [[D2 E2] | [D2 E2]]]; [lra | |].
      * rewrite E1, E2. apply ramp_mono; lra.
      * rewrite E2. apply Hrange.
    + rewrite (Hone s2) by lra. apply Hrange.
  - split; [exact Hramp |]. split; [exact Hone |].
    intros Hi Hz s. split; [| split]; intros Hd.
    + apply Hzero. lra.
    + rewrite Hramp by lra. rewrite Hd, Hi, Hz. lra.
    + apply Hone. lra.
Qed.

Lemma calculateOpacity_mask_witness :
  0 < fadeZone (initCanvas 1000 800) /\
  calculateOpacity (initCanvas 1000 800) 270 = 0.5.
Proof.
  assert (Hf : 0 < fadeZone (initCanvas 1000 800))
    by (unfold initCanvas, CONFIG.fadeZonePercent; simpl; lra).
  split; [exact Hf |].
  destruct (calculateOpacity_mask (initCanvas 1000 800) Hf)
    as (_ & _ & _ & Hramp & _).
  assert (Hd : Rabs (270 - 1000 / 2) = 230)
    by (unfold Rabs; destruct (Rcase_abs (270 - 1000 / 2)); lra).
  rewrite Hramp;
    unfold distFromCenter, initCanvas, CONFIG.marginPercent,
      CONFIG.fadeZonePercent; simpl; rewrite Hd; lra.
Defined.

Example calculateOpacity_inner_edge :
  let g := mkCanvas 600 400 300 200 20 100 in
  calculateOpacity g 200 = 0 /\ calculateOpacity g 180 = 1 /\
  calculateOpacity g 410 = 0.5.
Proof.
  simpl. unfold calculateOpacity, Rltb. simpl.
  repeat (destruct (Rlt_dec _ _); try lra).
Qed.

End Opacity.

(** ** Noise and the screen projector *)

Section Projector.
Local Open Scope R_scope.

Lemma unit_product a b : -1 <= a <= 1 -> -1 <= b <= 1 -> -1 <= a * b <= 1.
Proof. intros Ha Hb. split; nra. Qed.

Lemma smoothNoise_range x y t : -1 <= smoothNoise x y t <= 1.
Proof.
  unfold smoothNoise.
  pose proof (unit_product _ _ (SIN_bound (x * 1.3 + t))
                           (COS_bound (y * 0.9 + t * 0.7))) as H1.
  pose proof (unit_product _ _ (SIN_bound (x * 2.1 - t * 0.5))
                           (SIN_bound (y * 1.7 + t * 0.3))) as H2.
  pose proof (COS_bound (x * 0.8 + y * 1.1 + t * 0.9)) as H3.
  lra.
Qed.

(** C10. [smoothNoise] takes its values in [-1, 1] (three sinusoidal
    terms of amplitudes 0.5, 0.3 and 0.2), so the perturbation the
    projector adds to the blended position is at most 0.15 in X and 0.2
    in Y. *)
Theorem smoothNoise_bounded :
  (forall x y t, -1 <= smoothNoise x y t <= 1) /\
  (forall time p,
      Rabs (finalX time p - blendedX p) <= 0.15 /\
      Rabs (finalY time p - blendedY p) <= 0.2).
Proof.
  split; [exact smoothNoise_range |].
  intros time p. unfold finalX, finalY, noiseX, noiseY.
  pose proof (smoothNoise_range (Particle.noiseSeedX p * 0.5)
                                (Particle.noiseSeedY p * 0.5) time) as HX.
  pose proof (smoothNoise_range (Particle.noiseSeedY p * 0.5 + 50)
                                (Particle.noiseSeedX p * 0.5 + 50)
                                (time * 0.8)) as HY.
  split; apply Rabs_le; lra.
Qed.

Lemma projectToScreen_keeps p g time :
  Particle.side (projectToScreen g time p) = Particle.side p /\
  Particle.x (projectToScreen g time p) = Particle.x p /\
  Particle.y (projectToScreen g time p) = Particle.y p /\
  Particle.z (projectToScreen g time p) = Particle.z p.
Proof. by unfold projectToScreen. Qed.

(** C8. After [projectToScreen], on a surface of non-negative width and
    height, a left particle has -20 <= screenX <= marginWidth +
    0.08 * width, a right particle has width - marginWidth - 0.08 * width
    <= screenX <= width + 20, and every particle has -20 <= screenY <=
    height + 20. *)
Theorem projectToScreen_clamped (w h time : R) (p : Particle.t) :
  0 <= w -> 0 <= h ->
  let g := initCanvas w h in
  let p' := projectToScreen g time p in
  (Particle.side p = 0%Z ->
   -20 <= Particle.screenX p' <= marginWidth g + 0.08 * width g) /\
  (Particle.side p = 1%Z ->
   width g - marginWidth g - 0.08 * width g
     <= Particle.screenX p' <= width g + 20) /\
  -20 <= Particle.screenY p' <= height g + 20.
Proof.
  intros Hw Hh g p'. unfold p', projectToScreen. simpl.
  unfold projectX, projectY, g, initCanvas, CONFIG.marginPercent,
    CONFIG.fadeZonePercent. simpl.
  split; [| split].
  - intros ->. simpl. unfold Rltb.
    repeat (destruct (Rlt_dec _ _)); lra.
  - intros ->. simpl. unfold Rltb.
    repeat (destruct (Rlt_dec _ _)); lra.
  - unfold Rltb. repeat (destruct (Rlt_dec _ _)); lra.
Qed.

Lemma projectToScreen_clamped_witness :
  let g := initCanvas 1000 800 in
  let p := Particle.mk 1 2 20 0 0 12.5 40.25 2 1 grey 0 1 in
  let p' := projectToScreen g 0.0006 p in
  0 <= 1000 /\ 0 <= 800 /\
  -20 <= Particle.screenX p' <= marginWidth g + 0.08 * width g /\
  -20 <= Particle.screenY p' <= height g + 20.
Proof.
  intros g p p'.
  assert (Hw : 0 <= 1000) by lra. assert (Hh : 0 <= 800) by lra.
  destruct (projectToScreen_clamped 1000 800 0.0006 p Hw Hh)
    as (Hleft & _ & Hy).
  split; [exact Hw |]. split; [exact Hh |].
  split; [exact (Hleft eq_refl) | exact Hy].
Defined.

End Projector.

(** ** The neighbour query *)

Section Neighbours.
Local Open Scope R_scope.

Lemma distSq_nonneg p q : 0 <= distSq p q.
Proof.
  unfold distSq. cbv zeta.
  pose proof (Rle_0_sqr (Particle.screenX q - Particle.screenX p)) as Hx.
  pose proof (Rle_0_sqr (Particle.screenY q - Particle.screenY p)) as Hy.
  unfold Rsqr in Hx, Hy. lra.
Qed.

(** Two particles at Euclidean distance at most [c] are at most [c]
    apart in each coordinate. *)
Lemma screenDistance_coordinates p q c :
  screenDistance p q <= c ->
  Rabs (Particle.screenX q - Particle.screenX p) <= c /\
  Rabs (Particle.screenY q - Particle.screenY p) <= c.
Proof.
  unfold screenDistance. intros Hd.
  pose proof (distSq_nonneg p q) as H0.
  pose proof (sqrt_pos (distSq p q)) as Hs.
  pose proof (sqrt_sqrt _ H0) as Hsq.
  assert (Hc0 : 0 <= c) by lra.
  assert (Hc : distSq p q <= c * c) by nra.
  unfold distSq in Hc. cbv zeta in Hc.
  set (dx := Particle.screenX q - Particle.screenX p) in *.
  set (dy := Particle.screenY q - Particle.screenY p) in *.
  pose proof (Rle_0_sqr dx) as Hx2. pose proof (Rle_0_sqr dy) as Hy2.
  unfold Rsqr in Hx2, Hy2.
  split; apply Rabs_le; split; apply Rnot_lt_le; intros Hlt.
  - assert (c * c < dx * dx) by nra. lra.
  - assert (c * c < dx * dx) by nra. lra.
  - assert (c * c < dy * dy) by nra. lra.
  - assert (c * c < dy * dy) by nra. lra.
Qed.

(** C2. After [buildSpatialHash], two particles whose screen positions
    are at Euclidean distance at most the connection distance (70, which
    is the cell size) each appear in the buffer [getNearbyParticles]
    returns for the other, whatever the sign of their screen
    coordinates. *)
Theorem nearby_contains_close (ps : list Particle.t) (i j : nat)
        (p q : Particle.t) :
  ps !! i = Some p -> ps !! j = Some q ->
  screenDistance p q <= CONFIG.connectionDistance ->
  cellSize = CONFIG.connectionDistance /\
  In j (getNearbyParticles (buildSpatialHash ps) p) /\
  In i (getNearbyParticles (buildSpatialHash ps) q).
Proof.
  intros Hp Hq Hd. split; [reflexivity |].
  destruct (screenDistance_coordinates p q _ Hd) as [Hx Hy].
  split.
  - by apply (nearby_superset ps p j q).
  - apply (nearby_superset ps q i p); [done | |];
      rewrite <- Rabs_Ropp; unfold cellSize;
      [replace (- (Particle.screenX p - Particle.screenX q))
         with (Particle.screenX q - Particle.screenX p) by ring
      | replace (- (Particle.screenY p - Particle.screenY q))
         with (Particle.screenY q - Particle.screenY p) by ring]; done.
Qed.

Lemma nearby_contains_close_witness :
  let p := particleAt 0 (-20) (-15) in
  let q := particleAt 0 10 25 in
  screenDistance p q <= CONFIG.connectionDistance /\
  In 1%nat (getNearbyParticles (buildSpatialHash [p; q]) p) /\
  In 0%nat (getNearbyParticles (buildSpatialHash [p; q]) q).
Proof.
  intros p q.
  assert (Hd : screenDistance p q <= CONFIG.connectionDistance).
  { unfold screenDistance, distSq, p, q, particleAt,
      CONFIG.connectionDistance. simpl.
    replace ((10 - -20) * (10 - -20) + (25 - -15) * (25 - -15))
      with (50 * 50) by lra.
    rewrite sqrt_square; lra. }
  split; [exact Hd |].
  exact (proj2 (nearby_contains_close [p; q] 0 1 p q eq_refl eq_refl Hd)).
Defined.

End Neighbours.

(** ** The connection pass *)

Section Connections.
Local Open Scope R_scope.
Implicit Types (ps : list Particle.t) (ops : list R)
         (h : gmap Z (list nat)).

Lemma sqrt_4900 : sqrt 4900 = 70.
Proof. replace 4900 with (70 * 70) by lra. apply sqrt_square. lra. Qed.

(** Within the squared connection distance the distance factor of the
    alpha lies in (0, 1]. *)
Lemma distance_factor p1 p2 :
  distSq p1 p2 < 4900 -> 0 < 1 - screenDistance p1 p2 / 70 <= 1.
Proof.
  intros Hd. unfold screenDistance.
  pose proof (sqrt_pos (distSq p1 p2)) as H0.
  assert (Hlt : sqrt (distSq p1 p2) < 70).
  { rewrite <- sqrt_4900. apply sqrt_lt_1_alt.
    split; [apply distSq_nonneg | exact Hd]. }
  lra.
Qed.

(** A line is stroked only when both opacities are well above the
    visibility threshold. *)
Lemma alpha_visible f o1 o2 :
  0 < f <= 1 -> 0.01 < f * 0.25 * Rmin o1 o2 -> 0.01 < o1 /\ 0.01 < o2.
Proof.
  intros Hf Ha.
  pose proof (Rmin_l o1 o2) as Hl. pose proof (Rmin_r o1 o2) as Hr.
  assert (Hm : 0.04 < Rmin o1 o2).
  { apply Rnot_le_lt. intros Hle.
    destruct (Rle_dec (Rmin o1 o2) 0) as [Hneg | Hpos]; nra. }
  lra.
Qed.

Lemma connect_spec ps ops i p1 j ls :
  connect ps ops i p1 (ops !! i) j = Some ls ->
  forall l, In l ls <-> exists a, l = mkLine i j a /\ connects ps ops i p1 j a.
Proof.
  unfold connect, connects. intros Hc l.
  destruct (j <=? i)%nat eqn:Eji.
  { apply Nat.leb_le in Eji. injection Hc as <-. split; [done |].
    intros (a & _ & p2 & o1 & o2 & _ & _ & _ & Hij & _). lia. }
  apply Nat.leb_gt in Eji.
  destruct (ps !! j) as [p2 |] eqn:Ep2; [| discriminate].
  destruct (Particle.side p1 =? Particle.side p2)%Z eqn:Es; simpl in Hc.
  2:{ apply Z.eqb_neq in Es. injection Hc as <-. split; [done |].
      intros (a & _ & p2' & o1 & o2 & Hp2 & _ & _ & _ & Hs & _).
      congruence. }
  apply Z.eqb_eq in Es.
  destruct (ops !! j) as [o2 |] eqn:Eo2; simpl in Hc.
  2:{ destruct (Rltb (distSq p1 p2) CONFIG.connectionDistanceSq);
        [destruct (ops !! i) |]; simpl in Hc; injection Hc as <-;
        (split; [done |]);
        intros (a & _ & p2' & o1' & o2' & _ & _ & Ho2 & _); congruence. }
  destruct (Rltb o2 0.01) eqn:Eo2lt.
  { apply Rltb_true in Eo2lt. injection Hc as <-. split; [done |].
    intros (a & _ & p2' & o1' & o2' & _ & _ & Ho2 & _ & _ & _ & Hv & _).
    injection Ho2 as <-. lra. }
  destruct (Rltb (distSq p1 p2) CONFIG.connectionDistanceSq) eqn:Ed.
  2:{ apply Rltb_false in Ed. unfold CONFIG.connectionDistanceSq in Ed.
      injection Hc as <-. split; [done |].
      intros (a & _ & p2' & o1' & o2' & Hp2 & _ & _ & _ & _ & _ & _ & Hd & _).
      injection Hp2 as <-. lra. }
  apply Rltb_true in Ed. unfold CONFIG.connectionDistanceSq in Ed.
  destruct (ops !! i) as [o1 |] eqn:Eo1; simpl in Hc.
  2:{ injection Hc as <-. split; [done |].
      intros (a & _ & p2' & o1' & o2' & _ & Ho1 & _); congruence. }
  unfold CONFIG.connectionDistance in Hc.
  fold (screenDistance p1 p2) in Hc.
  set (alpha := (1 - screenDistance p1 p2 / 70) * 0.25 * Rmin o1 o2) in *.
  destruct (Rltb 0.01 alpha) eqn:Ea; injection Hc as <-.
  - apply Rltb_true in Ea.
    destruct (alpha_visible _ o1 o2 (distance_factor p1 p2 Ed) Ea)
      as [Hv1 Hv2].
    split.
    + intros [<- | []]. exists alpha. split; [done |].
      exists p2, o1, o2. by repeat split.
    + intros (a & -> & p2' & o1' & o2' & Hp2 & Ho1 & Ho2 & _ & _ & _ & _
                & _ & -> & _).
      injection Hp2 as <-. injection Ho1 as <-. injection Ho2 as <-.
      by left.
  - apply Rltb_false in Ea. split; [done |].
    intros (a & _ & p2' & o1' & o2' & Hp2 & Ho1 & Ho2 & _ & _ & _ & _
              & _ & -> & Hgt).
    injection Hp2 as <-. injection Ho1 as <-. injection Ho2 as <-.
    fold alpha in Hgt. lra.
Qed.

Lemma connect_total ps ops i p1 o1 j :
  is_Some (ps !! j) -> is_Some (connect ps ops i p1 o1 j).
Proof.
  intros [p2 Hp2]. unfold connect. rewrite Hp2.
  destruct (j <=? i)%nat; [done |].
  destruct (negb (Particle.side p1 =? Particle.side p2)%Z); [done |].
  destruct (ltU (ops !! j) 0.01); [done |].
  destruct (Rltb (distSq p1 p2) CONFIG.connectionDistanceSq); [| done].
  destruct (lineAlpha p1 p2 o1 (ops !! j)) as [alpha |]; [| done].
  by destruct (Rltb 0.01 alpha).
Qed.

Lemma connectAll_total ps ops i p1 o1 nearby :
  (forall j, In j nearby -> is_Some (ps !! j)) ->
  is_Some (connectAll ps ops i p1 o1 nearby).
Proof.
  induction nearby as [| j rest IH]; intros Hin; simpl; [done |].
  destruct (connect_total ps ops i p1 o1 j) as [ls ->];
    [apply Hin; by left |].
  destruct IH as [ls' ->]; [intros; apply Hin; by right |]. done.
Qed.

Lemma connectAll_spec ps ops i p1 nearby : forall ls,
  connectAll ps ops i p1 (ops !! i) nearby = Some ls ->
  forall l, In l ls <->
            exists j a, In j nearby /\ l = mkLine i j a /\
                        connects ps ops i p1 j a.
Proof.
  induction nearby as [| j rest IH]; intros ls Hc l; simpl in Hc.
  - injection Hc as <-. split; [done |]. by intros (j & a & [] & _).
  - destruct (connect ps ops i p1 (ops !! i) j) as [ls1 |] eqn:E1;
      [| discriminate].
    destruct (connectAll ps ops i p1 (ops !! i) rest) as [ls2 |] eqn:E2;
      [| discriminate].
    simpl in Hc. injection Hc as <-.
    rewrite in_app_iff, (connect_spec _ _ _ _ _ _ E1), (IH _ eq_refl).
    split.
    + intros [(a & Hl & Hcn) | (j' & a & Hj' & Hl & Hcn)].
      * exists j, a. split; [by left | done].
      * exists j', a. split; [by right | done].
    + intros (j' & a & [<- | Hj'] & Hl & Hcn).
      * left. by exists a.
      * right. by exists j', a.
Qed.

Lemma connectionsOf_spec ps ops h i p1 ls :
  connectionsOf ps ops h i p1 = Some ls ->
  forall l, In l ls <->
            exists j a, In j (getNearbyParticles h p1) /\
                        l = mkLine i j a /\ connects ps ops i p1 j a.
Proof.
  unfold connectionsOf. intros Hc l.
  destruct (ltU (ops !! i) 0.01) eqn:Elt.
  - injection Hc as <-. split; [done |].
    intros (j & a & _ & _ & p2 & o1 & o2 & _ & Ho1 & _ & _ & _ & Hv & _).
    rewrite Ho1 in Elt. simpl in Elt. apply Rltb_true in Elt. lra.
  - by apply connectAll_spec.
Qed.

Lemma connectionsOf_total ps ops i p1 :
  is_Some (connectionsOf ps ops (buildSpatialHash ps) i p1).
Proof.
  unfold connectionsOf. destruct (ltU (ops !! i) 0.01); [done |].
  apply connectAll_total. intros j. apply nearby_in_range.
Qed.

Lemma connectionsFrom_total ps ops todo : forall i,
  is_Some (connectionsFrom ps ops (buildSpatialHash ps) i todo).
Proof.
  induction todo as [| p1 rest IH]; intros i; simpl; [done |].
  destruct (connectionsOf_total ps ops i p1) as [ls ->].
  destruct (IH (S i)) as [ls' ->]. done.
Qed.

Lemma connectionsFrom_spec ps ops h todo : forall i ls,
  connectionsFrom ps ops h i todo = Some ls ->
  forall l, In l ls <->
            exists k p1 j a,
              todo !! k = Some p1 /\ In j (getNearbyParticles h p1) /\
              l = mkLine (i + k) j a /\ connects ps ops (i + k) p1 j a.
Proof.
  induction todo as [| p1 rest IH]; intros i ls Hc l; simpl in Hc.
  - injection Hc as <-. split; [done |].
    intros (k & p1 & j & a & Hk & _). by rewrite lookup_nil in Hk.
  - destruct (connectionsOf ps ops h i p1) as [ls1 |] eqn:E1;
      [| discriminate].
    destruct (connectionsFrom ps ops h (S i) rest) as [ls2 |] eqn:E2;
      [| discriminate].
    simpl in Hc. injection Hc as <-.
    rewrite in_app_iff, (connectionsOf_spec _ _ _ _ _ _ E1),
      (IH _ _ E2).
    split.
    + intros [(j & a & Hj & Hl & Hcn) | (k & q & j & a & Hk & Hj & Hl & Hcn)].
      * exists 0%nat, p1, j, a. rewrite Nat.add_0_r. by repeat split.
      * exists (S k), q, j, a.
        replace (i + S k)%nat with (S i + k)%nat by lia. by repeat split.
    + intros (k & q & j & a & Hk & Hj & Hl & Hcn).
      destruct k as [| k]; simpl in Hk.
      * injection Hk as <-. rewrite Nat.add_0_r in Hl, Hcn.
        left. by exists j, a.
      * right. exists k, q, j, a.
        replace (S i + k)%nat with (i + S k)%nat by lia. by repeat split.
Qed.

(** The lines of the connection pass, for any spatial hash. *)
Lemma drawConnections_spec ps ops h lines :
  drawConnections ps ops h = Some lines ->
  forall l, In l lines <->
            exists i p1 j a,
              ps !! i = Some p1 /\ In j (getNearbyParticles h p1) /\
              l = mkLine i j a /\ connects ps ops i p1 j a.
Proof.
  unfold drawConnections. intros Hc l.
  rewrite (connectionsFrom_spec _ _ _ _ _ _ Hc). reflexivity.
Qed.

(** On the hash built from the particles the connection pass never
    throws. *)
Lemma drawConnections_total ps ops :
  is_Some (drawConnections ps ops (buildSpatialHash ps)).
Proof. apply connectionsFrom_total. Qed.

Lemma Rmin_same o : Rmin o o = o.
Proof. unfold Rmin. by destruct (Rle_dec o o). Qed.

Lemma screenDistance_sq p1 p2 d :
  screenDistance p1 p2 = d -> distSq p1 p2 = d * d.
Proof.
  unfold screenDistance. intros <-. symmetry. apply sqrt_sqrt.
  apply distSq_nonneg.
Qed.

(** With two particles the only line the pass can stroke is the one from
    particle 0 to particle 1. *)
Lemma two_particles_line p1 p2 ops h lines l :
  drawConnections [p1; p2] ops h = Some lines -> In l lines ->
  exists a, l = mkLine 0 1 a /\ connects [p1; p2] ops 0 p1 1 a.
Proof.
  intros Hc Hl. apply (drawConnections_spec _ _ _ _ Hc) in Hl.
  destruct Hl as (i & q & j & a & Hq & _ & -> & Hcn).
  assert (Hij : i = 0%nat /\ j = 1%nat).
  { destruct Hcn as (q2 & _ & _ & Hq2 & _ & _ & Hij & _).
    apply lookup_lt_Some in Hq2. simpl in Hq2. lia. }
  destruct Hij as [-> ->]. simpl in Hq. injection Hq as <-.
  by exists a.
Qed.

(** *** No line is stroked twice *)

Lemma connect_shape ps ops i p1 o1 j ls :
  connect ps ops i p1 o1 j = Some ls ->
  ls = [] \/ exists a, ls = [mkLine i j a].
Proof.
  unfold connect. intros Hc.
  repeat (match type of Hc with
          | context [match ?c with _ => _ end] => destruct c
          end; try discriminate; try (injection Hc as <-));
    (by left) || (right; by eexists).
Qed.

(** The lines of one row are distinct when the neighbours are: each
    neighbour gives at most one line, which names it. *)
Lemma connectAll_NoDup ps ops i p1 o1 nearby : forall ls,
  connectAll ps ops i p1 o1 nearby = Some ls ->
  NoDup nearby ->
  NoDup ls /\ forall l, In l ls -> line_i l = i /\ In (line_j l) nearby.
Proof.
  induction nearby as [| j rest IH]; intros ls Hc Hnd; simpl in Hc.
  - injection Hc as <-. split; [apply NoDup_nil_2 | done].
  - destruct (connect ps ops i p1 o1 j) as [ls1 |] eqn:E1; [| discriminate].
    destruct (connectAll ps ops i p1 o1 rest) as [ls2 |] eqn:E2;
      [| discriminate].
    simpl in Hc. injection Hc as <-.
    apply NoDup_cons in Hnd. destruct Hnd as [Hj Hrest].
    destruct (IH _ eq_refl Hrest) as [Hnd2 Hin2].
    destruct (connect_shape _ _ _ _ _ _ _ E1) as [-> | [a ->]]; simpl.
    + split; [exact Hnd2 |]. intros l Hl.
      destruct (Hin2 l Hl). split; [done | by right].
    + split.
      * apply NoDup_cons. split; [| exact Hnd2].
        intros Hl. apply list_elem_of_In, Hin2 in Hl. simpl in Hl.
        apply Hj, list_elem_of_In. tauto.
      * intros l [<- | Hl]; simpl; [split; [done | by left] |].
        destruct (Hin2 l Hl). split; [done | by right].
Qed.

Lemma connectionsOf_NoDup ps ops i p1 ls :
  connectionsOf ps ops (buildSpatialHash ps) i p1 = Some ls ->
  NoDup ls /\ forall l, In l ls -> line_i l = i.
Proof.
  unfold connectionsOf. intros Hc.
  destruct (ltU (ops !! i) 0.01).
  - injection Hc as <-. split; [apply NoDup_nil_2 | done].
  - destruct (connectAll_NoDup _ _ _ _ _ _ _ Hc) as [Hnd Hin].
    + apply NoDup_getNearbyParticles.
    + split; [exact Hnd |]. intros l Hl. by destruct (Hin l Hl).
Qed.

Lemma connectionsFrom_NoDup ps ops todo : forall i ls,
  connectionsFrom ps ops (buildSpatialHash ps) i todo = Some ls ->
  NoDup ls /\ forall l, In l ls -> (i <= line_i l)%nat.
Proof.
  induction todo as [| p1 rest IH]; intros i ls Hc; simpl in Hc.
  - injection Hc as <-. split; [apply NoDup_nil_2 | done].
  - destruct (connectionsOf ps ops (buildSpatialHash ps) i p1)
      as [ls1 |] eqn:E1; [| discriminate].
    destruct (connectionsFrom ps ops (buildSpatialHash ps) (S i) rest)
      as [ls2 |] eqn:E2; [| discriminate].
    simpl in Hc. injection Hc as <-.
    destruct (connectionsOf_NoDup _ _ _ _ _ E1) as [Hnd1 Hin1].
    destruct (IH _ _ E2) as [Hnd2 Hin2].
    split.
    + apply NoDup_app. split; [exact Hnd1 |]. split; [| exact Hnd2].
      intros l Hl1 Hl2. apply list_elem_of_In in Hl1, Hl2.
      apply Hin1 in Hl1. apply Hin2 in Hl2. lia.
    + intros l Hl. apply in_app_iff in Hl. destruct Hl as [Hl | Hl].
      * apply Hin1 in Hl. lia.
      * apply Hin2 in Hl. lia.
Qed.

(** No line is stroked twice in one connection pass. *)
Lemma drawConnections_NoDup ps ops lines :
  drawConnections ps ops (buildSpatialHash ps) = Some lines -> NoDup lines.
Proof.
  unfold drawConnections. intros Hc.
  by destruct (connectionsFrom_NoDup _ _ _ _ _ Hc).
Qed.

Lemma NoDup_only {A} (l : list A) (x : A) :
  NoDup l -> In x l -> (forall y, In y l -> y = x) -> l = [x].
Proof.
  intros Hnd Hx Hall.
  destruct l as [| a [| b rest]]; [done | |].
  - f_equal. apply Hall. by left.
  - exfalso. apply NoDup_cons in Hnd. destruct Hnd as [Ha _].
    apply Ha. rewrite (Hall a), (Hall b); [by left | | by left].
    right. by left.
Qed.

(** The lines of the connection pass on the hash just built: the line
    from i to j is listed exactly when j is returned by the neighbour
    query for i and the pair meets the conditions of [connects], with
    the alpha of [connects].  Two left particles of opacity 1 at
    distance 10 give the line of alpha 3/14, once, and no other; at
    distance 80 they give no line. *)
Lemma drawConnections_lines :
  (forall ps ops,
      exists lines,
        drawConnections ps ops (buildSpatialHash ps) = Some lines /\
        forall i j a,
          In (mkLine i j a) lines <->
          exists p1,
            ps !! i = Some p1 /\
            In j (getNearbyParticles (buildSpatialHash ps) p1) /\
            connects ps ops i p1 j a) /\
  (forall p1 p2,
      Particle.side p1 = 0%Z -> Particle.side p2 = 0%Z ->
      screenDistance p1 p2 = 10 ->
      drawConnections [p1; p2] [1; 1] (buildSpatialHash [p1; p2])
      = Some [mkLine 0 1 (3 / 14)]) /\
  (forall p1 p2,
      Particle.side p1 = 0%Z -> Particle.side p2 = 0%Z ->
      screenDistance p1 p2 = 80 ->
      drawConnections [p1; p2] [1; 1] (buildSpatialHash [p1; p2])
      = Some []).
Proof.
  split; [| split].
  - intros ps ops.
    destruct (drawConnections_total ps ops) as [lines Hc].
    exists lines. split; [exact Hc |]. intros i j a.
    rewrite (drawConnections_spec _ _ _ _ Hc). split.
    + intros (i' & p1 & j' & a' & Hp1 & Hj & Heq & Hcn).
      injection Heq as -> -> ->. by exists p1.
    + intros (p1 & Hp1 & Hj & Hcn). by exists i, p1, j, a.
  - intros p1 p2 Hs1 Hs2 Hd.
    destruct (drawConnections_total [p1; p2] [1; 1]) as [lines Hc].
    rewrite Hc. f_equal.
    pose proof (screenDistance_sq _ _ _ Hd) as Hsq.
    assert (Hcn : connects [p1; p2] [1; 1] 0 p1 1 (3 / 14)).
    { exists p2, 1, 1.
      split; [done |]. split; [done |]. split; [done |].
      split; [lia |]. split; [congruence |].
      split; [lra |]. split; [lra |]. split; [rewrite Hsq; lra |].
      split; [rewrite Hd, Rmin_same; lra | lra]. }
    apply NoDup_only; [by apply (drawConnections_NoDup _ _ _ Hc) | |].
    + apply (drawConnections_spec _ _ _ _ Hc).
      exists 0%nat, p1, 1%nat, (3 / 14). repeat split; try done.
      assert (Hle : screenDistance p1 p2 <= cellSize)
        by (rewrite Hd; unfold cellSize, CONFIG.connectionDistance; lra).
      destruct (screenDistance_coordinates _ _ _ Hle) as [Hx Hy].
      by apply (nearby_superset [p1; p2] p1 1 p2).
    + intros l Hl.
      destruct (two_particles_line _ _ _ _ _ _ Hc Hl) as (a & -> & Ha).
      destruct Ha as (q2 & o1 & o2 & Hq2 & Ho1 & Ho2 & _ & _ & _ & _ & _
                        & -> & _).
      simpl in Hq2, Ho1, Ho2.
      injection Hq2 as <-. injection Ho1 as <-. injection Ho2 as <-.
      rewrite Hd, Rmin_same. f_equal. lra.
  - intros p1 p2 Hs1 Hs2 Hd.
    destruct (drawConnections_total [p1; p2] [1; 1]) as [lines Hc].
    rewrite Hc. f_equal. destruct lines as [| l rest]; [done |].
    exfalso.
    destruct (two_particles_line _ _ _ _ (l :: rest) l Hc) as (a & _ & Ha);
      [by left |].
    destruct Ha as (q2 & _ & _ & Hq2 & _ & _ & _ & _ & _ & _ & Hlt & _).
    simpl in Hq2. injection Hq2 as <-.
    rewrite (screenDistance_sq _ _ _ Hd) in Hlt. lra.
Qed.

(** C7. The lines of one connection pass never contain both (i, j) and
    (j, i), never a pair (i, i), and never a pair of particles whose
    sides differ. *)
Theorem drawConnections_pairs (ps : list Particle.t) (ops : list R) :
  exists lines,
    drawConnections ps ops (buildSpatialHash ps) = Some lines /\
    (forall i j a b,
        In (mkLine i j a) lines -> ~ In (mkLine j i b) lines) /\
    (forall i a, ~ In (mkLine i i a) lines) /\
    (forall i j a,
        In (mkLine i j a) lines ->
        exists p1 p2, ps !! i = Some p1 /\ ps !! j = Some p2 /\
                      Particle.side p1 = Particle.side p2).
Proof.
  destruct (drawConnections_total ps ops) as [lines Hc].
  exists lines. split; [exact Hc |].
  assert (Hord : forall i j a, In (mkLine i j a) lines ->
            (i < j)%nat /\
            exists p1 p2, ps !! i = Some p1 /\ ps !! j = Some p2 /\
                          Particle.side p1 = Particle.side p2).
  { intros i j a Hl. apply (drawConnections_spec _ _ _ _ Hc) in Hl.
    destruct Hl as (i' & p1 & j' & a' & Hp1 & _ & Heq & Hcn).
    injection Heq as -> -> ->.
    destruct Hcn as (p2 & _ & _ & Hp2 & _ & _ & Hij & Hs & _).
    split; [exact Hij |]. by exists p1, p2. }
  split; [| split].
  - intros i j a b H1 H2.
    apply Hord in H1, H2. destruct H1 as [H1 _], H2 as [H2 _]. lia.
  - intros i a H. apply Hord in H. destruct H as [H _]. lia.
  - intros i j a H. by apply Hord in H as [_ H].
Qed.

End Connections.

(** ** The frame scheduler *)

Section Scheduler.
Local Open Scope R_scope.
Variable random : nat -> R.

Lemma throttled_true t last :
  throttled t last = true <->
  exists c l, t = Some c /\ last = Some l /\ c - l < 1000 / 30.
Proof.
  unfold throttled, FRAME_INTERVAL, TARGET_FPS. split.
  - destruct t as [c |], last as [l |]; try discriminate.
    intros H. apply Rltb_true in H. by exists c, l.
  - intros (c & l & -> & -> & H). by apply Rltb_true.
Qed.

Lemma render_skip st t :
  isVisible st = false \/ throttled t (lastFrameTime st) = true ->
  render random st t = Some (reschedule st, []).
Proof.
  unfold render. intros [-> | Hthr]; [done |].
  rewrite Hthr. by destruct (isVisible st).
Qed.

Lemma render_active st t :
  isVisible st = true -> throttled t (lastFrameTime st) = false ->
  exists st' cmds,
    render random st t = Some (st', cmds) /\
    time st' = time st + CONFIG.noiseSpeed /\
    lastFrameTime st' = t /\
    isVisible st' = true /\
    canvas st' = canvas st /\
    spatialHash st' = buildSpatialHash (particles st').
Proof.
  intros Hvis Hthr. unfold render. rewrite Hvis, Hthr. simpl.
  destruct (updateParticles random (canvas st)
              (time st + CONFIG.noiseSpeed) 0 (particles st)
              (opacities st) (cursor st)) as [[ps ops] k] eqn:E.
  destruct (drawConnections_total ps ops) as [lines ->]. simpl.
  eexists _, _. split; [reflexivity |]. by simpl.
Qed.

(** Ticks that are skipped leave the simulation where it is, however
    many there are. *)
Lemma ticks_skipped stamps : forall st,
  (isVisible st = false \/
   forall t, In t stamps -> throttled t (lastFrameTime st) = true) ->
  exists st',
    ticks random st stamps = Some st' /\
    particles st' = particles st /\ opacities st' = opacities st /\
    time st' = time st /\ spatialHash st' = spatialHash st /\
    lastFrameTime st' = lastFrameTime st /\ cursor st' = cursor st /\
    isVisible st' = isVisible st /\ canvas st' = canvas st.
Proof.
  induction stamps as [| t rest IH]; intros st Hskip; simpl.
  - by exists st.
  - rewrite render_skip; simpl.
    + destruct (IH (reschedule st)) as (st' & Hrun & Hst').
      * destruct Hskip as [Hv | Hthr]; [by left |].
        right. intros t' Ht'. apply Hthr. by right.
      * exists st'. split; [exact Hrun |]. exact Hst'.
    + destruct Hskip as [Hv | Hthr]; [by left |].
      right. apply Hthr. by left.
Qed.

Lemma ticks_app stamps1 : forall st stamps2,
  ticks random st (stamps1 ++ stamps2)
  = st' ← ticks random st stamps1; ticks random st' stamps2.
Proof.
  induction stamps1 as [| t rest IH]; intros st stamps2; simpl; [done |].
  destruct (render random st t) as [[st1 cmds] |]; simpl; [apply IH | done].
Qed.

(** C9. A tick taken while the surface is hidden, or less than the frame
    interval 1000/30 after the last executed frame, changes no particle,
    opacity, simulation time, spatial hash or last frame time; an active
    tick adds exactly 0.0006 to the simulation time, whatever the
    timestamp, and so does an active tick that follows any number of
    skipped ones. *)
Theorem render_tick_effect (st : State) (t : option R) :
  (isVisible st = false \/
   (exists c l, t = Some c /\ lastFrameTime st = Some l /\
                c - l < 1000 / 30) ->
   exists st',
     render random st t = Some (st', []) /\
     particles st' = particles st /\ opacities st' = opacities st /\
     time st' = time st /\ spatialHash st' = spatialHash st /\
     lastFrameTime st' = lastFrameTime st) /\
  (isVisible st = true ->
   (forall c l, t = Some c -> lastFrameTime st = Some l ->
                1000 / 30 <= c - l) ->
   exists st' cmds,
     render random st t = Some (st', cmds) /\
     time st' = time st + 0.0006) /\
  (forall skipped,
      isVisible st = true ->
      (forall s, In s skipped ->
                 exists c l, s = Some c /\ lastFrameTime st = Some l /\
                             c - l < 1000 / 30) ->
      (forall c l, t = Some c -> lastFrameTime st = Some l ->
                   1000 / 30 <= c - l) ->
      exists st',
        ticks random st (skipped ++ [t]) = Some st' /\
        time st' = time st + 0.0006).
Proof.
  assert (Hact : forall st0 : State,
             (forall c l, t = Some c -> lastFrameTime st0 = Some l ->
                          1000 / 30 <= c - l) ->
             throttled t (lastFrameTime st0) = false).
  { intros st0 H. destruct (throttled t (lastFrameTime st0)) eqn:E; [| done].
    apply throttled_true in E. destruct E as (c & l & Ht & Hl & Hlt).
    specialize (H c l Ht Hl). lra. }
  split; [| split].
  - intros Hskip. exists (reschedule st). split; [| done].
    apply render_skip. destruct Hskip as [Hv | Hthr]; [by left |].
    right. by apply throttled_true.
  - intros Hvis Hlate.
    destruct (render_active st t Hvis (Hact st Hlate))
      as (st' & cmds & Hr & Ht & _).
    exists st', cmds. split; [exact Hr |]. exact Ht.
  - intros skipped Hvis Hskip Hlate. rewrite ticks_app.
    destruct (ticks_skipped skipped st) as (st1 & -> & _ & _ & Ht1 & _ & Hl1
                                              & _ & Hv1 & _).
    { right. intros s Hs. apply throttled_true. by apply Hskip. }
    simpl.
    destruct (render_active st1 t) as (st' & cmds & -> & Ht & _).
    + congruence.
    + apply Hact. rewrite Hl1. exact Hlate.
    + simpl. exists st'. split; [done |].
      rewrite Ht, Ht1. unfold CONFIG.noiseSpeed. lra.
Qed.

(** X23. The first call, [render()] from [init], has no timestamp: it
    executes a frame and leaves the last frame time undefined, so the tick
    after it executes a frame too, whatever its timestamp. *)
Lemma init_first_frames innerWidth innerHeight t :
  exists st cmds st' cmds',
    init random innerWidth innerHeight = Some (st, cmds) /\
    time st = 0.0006 /\ lastFrameTime st = None /\
    render random st t = Some (st', cmds') /\
    time st' = 0.0006 + 0.0006.
Proof.
  unfold init.
  destruct (render_active (initialState random innerWidth innerHeight) None)
    as (st & cmds & Hr & Ht & Hl & Hv & _).
  { unfold initialState. by destruct (initParticles random 0) as [[ps ops] k]. }
  { unfold initialState. by destruct (initParticles random 0) as [[ps ops] k]. }
  destruct (render_active st t Hv) as (st' & cmds' & Hr' & Ht' & _).
  { rewrite Hl. unfold throttled. by destruct t. }
  exists st, cmds, st', cmds'. split; [exact Hr |].
  assert (H0 : time st = 0.0006).
  { rewrite Ht. unfold initialState, CONFIG.noiseSpeed.
    destruct (initParticles random 0) as [[ps ops] k]. simpl. lra. }
  split; [exact H0 |]. split; [exact Hl |]. split; [exact Hr' |].
  rewrite Ht', H0. unfold CONFIG.noiseSpeed. lra.
Qed.

End Scheduler.

(** ** Further properties of the cell key and of the spatial hash *)

Section KeyAndHash.
Implicit Types (h : gmap Z (list nat)) (ps : list Particle.t).

(** X1. Two cells have the same key exactly when their coordinates agree
    modulo 65536: the key is periodic with period 65536 in each
    coordinate, and it is a 32-bit signed integer. *)
Theorem cellKey_collisions :
  (forall a b a' b' : Z,
      cellKey a b = cellKey a' b' <->
      (a mod 2 ^ 16 = a' mod 2 ^ 16 /\ b mod 2 ^ 16 = b' mod 2 ^ 16)%Z) /\
  (forall a b : Z,
      cellKey (a + 65536) b = cellKey a b /\
      cellKey a (b + 65536) = cellKey a b) /\
  (forall a b : Z, (- 2 ^ 31 <= cellKey a b < 2 ^ 31)%Z).
Proof.
  split; [| split].
  - intros a b a' b'. split.
    + apply cellKey_low16.
    + intros [Ha Hb]. by apply cellKey_congr.
  - intros a b.
    split; apply cellKey_congr; try reflexivity;
      Z.to_euclidean_division_equations; lia.
  - intros a b. rewrite cellKey_closed.
    Z.to_euclidean_division_equations. lia.
Qed.

(** X2. [(s / cellSize) | 0] truncates towards zero: for a position
    whose quotient fits 32 bits, the cell bounds the position from below
    when it is non-negative and from above when it is negative, so the
    whole interval (-70, 70) is cell 0. *)
Theorem cellOf_truncation (s : R) :
  (-150323855360 < s < 150323855360)%R ->
  (0 <= s -> IZR (cellOf s) * 70 <= s < IZR (cellOf s) * 70 + 70)%R /\
  (s < 0 -> s <= IZR (cellOf s) * 70 < s + 70)%R /\
  (-70 < s < 70 -> cellOf s = 0%Z)%R.
Proof.
  intros Hs. rewrite cellOf_wrap.
  unfold cellSize, CONFIG.connectionDistance.
  pose proof (trunc_spec (s / 70)) as Ht.
  assert (Hr : (-2147483649 < IZR (Int32.trunc (s / 70)) < 2147483648)%R)
    by (destruct Ht as [[H0 H] | [H0 H]]; lra).
  destruct Hr as [Hl Hu]. apply lt_IZR in Hl, Hu.
  rewrite wrap_small by lia.
  split; [| split].
  - intros H0. destruct Ht as [[_ H] | [Hn _]]; lra.
  - intros H0. destruct Ht as [[Hn _] | [_ H]]; lra.
  - intros H70.
    assert (H1 : (-1 < IZR (Int32.trunc (s / 70)) < 1)%R)
      by (destruct Ht as [[H0 H] | [H0 H]]; lra).
    destruct H1 as [H1 H2]. apply lt_IZR in H1, H2. lia.
Qed.

Lemma cellOf_truncation_witness :
  (-150323855360 < -20 < 150323855360)%R /\ cellOf (-20) = 0%Z.
Proof.
  assert (Hs : (-150323855360 < -20 < 150323855360)%R) by lra.
  split; [exact Hs |].
  destruct (cellOf_truncation (-20) Hs) as (_ & _ & H0).
  apply H0. lra.
Defined.

Lemma buildFrom_nonempty ps : forall i h key,
  (forall k, h !! k <> Some []) -> buildFrom i ps h !! key <> Some [].
Proof.
  induction ps as [| p rest IH]; intros i h key Hne; simpl; [apply Hne |].
  apply IH. intros k. unfold hashPush.
  destruct (decide (keyOf p = k)) as [<- | Hk].
  - destruct (h !! keyOf p) as [cell |]; rewrite lookup_insert_eq.
    + intros [=E]. by destruct cell.
    + discriminate.
  - destruct (h !! keyOf p) as [cell |];
      rewrite lookup_insert_ne by done; apply Hne.
Qed.

(** X3. [buildSpatialHash] partitions the particle indices by key: the
    cell stored under a key lists exactly the indices of the particles
    with that key, each once, and a key no particle has is absent from
    the map (no empty cell is stored). *)
Theorem buildSpatialHash_partition ps :
  (forall key x,
      In x (bucket (buildSpatialHash ps) key) <->
      exists p, ps !! x = Some p /\ key = keyOf p) /\
  (forall key, NoDup (bucket (buildSpatialHash ps) key)) /\
  (forall key,
      buildSpatialHash ps !! key = None <->
      forall x p, ps !! x = Some p -> keyOf p <> key).
Proof.
  split; [| split].
  - intros key x. apply bucket_buildSpatialHash.
  - apply NoDup_bucket.
  - intros key. split.
    + intros Hnone x p Hp Hk.
      assert (Hin : In x (bucket (buildSpatialHash ps) key))
        by (apply bucket_buildSpatialHash; by exists p).
      unfold bucket in Hin. by rewrite Hnone in Hin.
    + intros Hfree.
      destruct (buildSpatialHash ps !! key) as [cell |] eqn:E; [| done].
      destruct cell as [| x cell].
      * exfalso. revert E. apply buildFrom_nonempty. intros k.
        by rewrite lookup_empty.
      * exfalso.
        assert (Hin : In x (bucket (buildSpatialHash ps) key))
          by (unfold bucket; rewrite E; by left).
        apply bucket_buildSpatialHash in Hin.
        destruct Hin as (p & Hp & ->). by apply (Hfree x p).
Qed.

(** X4. On a freshly built hash the neighbour query returns no index
    twice, only indices of particles, and always the index of the
    particle it is asked for. *)
Theorem getNearbyParticles_indices ps :
  (forall p, NoDup (getNearbyParticles (buildSpatialHash ps) p)) /\
  (forall p j, In j (getNearbyParticles (buildSpatialHash ps) p) ->
               (j < length ps)%nat) /\
  (forall i p, ps !! i = Some p ->
               In i (getNearbyParticles (buildSpatialHash ps) p)).
Proof.
  split; [| split].
  - apply NoDup_getNearbyParticles.
  - intros p j Hj. apply nearby_in_range in Hj. destruct Hj as [q Hq].
    by apply lookup_lt_Some in Hq.
  - intros i p Hp. apply (nearby_superset ps p i p Hp);
      rewrite Rminus_diag, Rabs_R0;
      unfold cellSize, CONFIG.connectionDistance; lra.
Qed.

(** A clamped position lies at most 20 pixels below its cell and less
    than one cell size above its start. *)
Lemma cellOf_clamped_bracket s :
  (-20 <= s < 4587450)%R ->
  (IZR (cellOf s) * 70 - 20 <= s < IZR (cellOf s) * 70 + 70)%R.
Proof.
  intros Hs. rewrite cellOf_wrap.
  unfold cellSize, CONFIG.connectionDistance.
  pose proof (trunc_spec (s / 70)) as Ht.
  assert (Hr : (-1 < IZR (Int32.trunc (s / 70)) < 65535)%R)
    by (destruct Ht as [[H0 H] | [H0 H]]; lra).
  destruct Hr as [Hl Hu]. apply lt_IZR in Hl, Hu.
  rewrite wrap_small by lia.
  destruct Ht as [[H0 H] | [H0 H]]; [lra |].
  assert (H1 : (IZR (Int32.trunc (s / 70)) < 1)%R) by lra.
  apply lt_IZR in H1.
  assert (Int32.trunc (s / 70) = 0%Z) as -> by lia. lra.
Qed.

(** X5. For positions the projector can produce on a surface below
    4587450 pixels, the 3x3 query is exact on cells: a particle it returns
    lies in the same or in an adjacent cell, hence less than 160 pixels
    away in each coordinate (two cells, plus the 20 pixels of negative
    overscan that fall into cell 0). *)
Theorem getNearbyParticles_adjacent ps (i j : nat) (p q : Particle.t) :
  ps !! i = Some p -> ps !! j = Some q ->
  (-20 <= Particle.screenX p < 4587450)%R ->
  (-20 <= Particle.screenY p < 4587450)%R ->
  (-20 <= Particle.screenX q < 4587450)%R ->
  (-20 <= Particle.screenY q < 4587450)%R ->
  In j (getNearbyParticles (buildSpatialHash ps) p) ->
  (-1 <= cellOf (Particle.screenX q) - cellOf (Particle.screenX p) <= 1)%Z /\
  (-1 <= cellOf (Particle.screenY q) - cellOf (Particle.screenY p) <= 1)%Z /\
  (Rabs (Particle.screenX q - Particle.screenX p) < 160)%R /\
  (Rabs (Particle.screenY q - Particle.screenY p) < 160)%R.
Proof.
  intros Hp Hq Hpx Hpy Hqx Hqy Hin.
  apply in_getNearbyParticles in Hin.
  destruct Hin as (dx & dy & Hdx & Hdy & Hin).
  unfold cellAt in Hin. apply bucket_buildSpatialHash in Hin.
  destruct Hin as (q' & Hq' & Hkey).
  assert (q' = q) as -> by congruence.
  unfold keyOf in Hkey. apply cellKey_low16 in Hkey.
  destruct Hkey as [Kx Ky].
  pose proof (cellOf_clamped _ Hpx) as Cpx.
  pose proof (cellOf_clamped _ Hpy) as Cpy.
  pose proof (cellOf_clamped _ Hqx) as Cqx.
  pose proof (cellOf_clamped _ Hqy) as Cqy.
  assert (Ex : (cellOf (Particle.screenX q)
                = cellOf (Particle.screenX p) + dx)%Z)
    by (Z.to_euclidean_division_equations; lia).
  assert (Ey : (cellOf (Particle.screenY q)
                = cellOf (Particle.screenY p) + dy)%Z)
    by (Z.to_euclidean_division_equations; lia).
  split; [lia |]. split; [lia |].
  pose proof (cellOf_clamped_bracket _ Hpx) as Bpx.
  pose proof (cellOf_clamped_bracket _ Hpy) as Bpy.
  pose proof (cellOf_clamped_bracket _ Hqx) as Bqx.
  pose proof (cellOf_clamped_bracket _ Hqy) as Bqy.
  rewrite Ex in Bqx. rewrite Ey in Bqy. rewrite plus_IZR in Bqx, Bqy.
  assert (Hdx' : (-1 <= IZR dx <= 1)%R)
    by (split; [apply (IZR_le (-1)) | apply (IZR_le _ 1)]; lia).
  assert (Hdy' : (-1 <= IZR dy <= 1)%R)
    by (split; [apply (IZR_le (-1)) | apply (IZR_le _ 1)]; lia).
  split; apply Rabs_def1; lra.
Qed.

Lemma getNearbyParticles_adjacent_witness :
  let p := particleAt 0 (-20) (-15) in
  let q := particleAt 0 10 25 in
  (-1 <= cellOf (Particle.screenX q) - cellOf (Particle.screenX p) <= 1)%Z /\
  (Rabs (Particle.screenX q - Particle.screenX p) < 160)%R.
Proof.
  intros p q.
  assert (Hin : In 1%nat (getNearbyParticles (buildSpatialHash [p; q]) p)).
  { apply (nearby_superset [p; q] p 1 q eq_refl);
      unfold p, q, particleAt, cellSize, CONFIG.connectionDistance; simpl;
      apply Rabs_le; lra. }
  destruct (getNearbyParticles_adjacent [p; q] 0 1 p q eq_refl eq_refl)
    as (Hc & _ & Hd & _); try exact Hin;
    try (unfold p, q, particleAt; simpl; lra).
  split; [exact Hc | exact Hd].
Defined.

End KeyAndHash.

(** ** Further properties of particles, projector and mask *)

Section ParticleFacts.
Local Open Scope R_scope.
Variable random : nat -> R.
Hypothesis random_range : forall n, 0 <= random n < 1.

Lemma createParticle_wellFormed side k :
  side = 0%Z \/ side = 1%Z ->
  wellFormed (fst (createParticle random side k)).
Proof.
  intros Hside. unfold wellFormed, createParticle,
    CONFIG.particleMinSize, CONFIG.particleMaxSize. simpl.
  pose proof (random_range (k + 3)). pose proof (random_range (k + 4)).
  pose proof (random_range (k + 5)). pose proof (random_range (k + 6)).
  repeat split; try lra. exact Hside.
Qed.

Lemma createParticles_spec side n : forall k ps k',
  createParticles random side n k = (ps, k') ->
  length ps = n /\ k' = (k + 8 * n)%nat /\
  forall i p, ps !! i = Some p ->
              p = fst (createParticle random side (k + 8 * i)).
Proof.
  induction n as [| n IH]; intros k ps k' Hc; simpl in Hc.
  - injection Hc as <- <-. split; [done |]. split; [lia |].
    intros i p Hp. by rewrite lookup_nil in Hp.
  - destruct (createParticles random side n (k + 8)) as [rest k2] eqn:E.
    injection Hc as <- <-.
    destruct (IH _ _ _ E) as (Hlen & -> & Hall).
    split; [simpl; by rewrite Hlen |]. split; [lia |].
    intros [| i] p Hp; simpl in Hp.
    + injection Hp as <-. by rewrite Nat.mul_0_r, Nat.add_0_r.
    + rewrite (Hall i p Hp). do 2 f_equal. lia.
Qed.

Lemma initParticles_shape k :
  exists ps,
    initParticles random k = (ps, replicate 80 0, (k + 640)%nat) /\
    length ps = 80%nat /\
    forall i p, ps !! i = Some p ->
                exists kj, p = fst (createParticle random
                                      (if (i <? 40)%nat then 0 else 1)%Z kj).
Proof.
  unfold initParticles, CONFIG.particleCount.
  change (Nat.shiftr 80 1) with 40%nat. change (80 - 40)%nat with 40%nat.
  destruct (createParticles random 0 40 k) as [lefts k1] eqn:E1.
  destruct (createParticles random 1 40 k1) as [rights k2] eqn:E2.
  destruct (createParticles_spec _ _ _ _ _ E1) as (L1 & -> & A1).
  destruct (createParticles_spec _ _ _ _ _ E2) as (L2 & -> & A2).
  exists (lefts ++ rights). split; [f_equal; lia |].
  split; [rewrite length_app; lia |].
  intros i p Hp. destruct (Nat.ltb_spec i 40) as [Hi | Hi].
  - rewrite lookup_app_l in Hp by lia. eexists. by apply A1.
  - rewrite lookup_app_r in Hp by lia. eexists. by apply A2.
Qed.

End ParticleFacts.

Section ParticleClaims.
Local Open Scope R_scope.

(** X6. [createParticle] consumes exactly eight random values and, with
    [Math.random] in [0, 1), returns a particle of the requested side
    with x, y in [-15, 15), z in [10, 40], size in [1, 3.5), brightness in
    [0.4, 1), noise seeds in [0, 100), screen position (0, 0) and depth
    scale 1; the colour is grey exactly when the eighth value is below
    0.9. *)
Theorem createParticle_fields (random : nat -> R) (side : Z) (k : nat) :
  (forall n, 0 <= random n < 1) ->
  let p := fst (createParticle random side k) in
  snd (createParticle random side k) = (k + 8)%nat /\
  Particle.side p = side /\
  -15 <= Particle.x p < 15 /\ -15 <= Particle.y p < 15 /\
  10 <= Particle.z p <= 40 /\
  1 <= Particle.size p < 3.5 /\
  0.4 <= Particle.brightness p < 1 /\
  0 <= Particle.noiseSeedX p < 100 /\ 0 <= Particle.noiseSeedY p < 100 /\
  Particle.screenX p = 0 /\ Particle.screenY p = 0 /\
  Particle.depthScale p = 1 /\
  (Particle.colorType p = grey <-> random (k + 7)%nat < 0.9).
Proof.
  intros Hr p. unfold p, createParticle,
    CONFIG.particleMinSize, CONFIG.particleMaxSize. simpl.
  pose proof (Hr k). pose proof (Hr (k + 1)%nat). pose proof (Hr (k + 2)%nat).
  pose proof (Hr (k + 3)%nat). pose proof (Hr (k + 4)%nat).
  pose proof (Hr (k + 5)%nat). pose proof (Hr (k + 6)%nat).
  repeat split; try lra.
  - destruct (Rltb (random (k + 7)%nat) 0.9) eqn:E; [| discriminate].
    intros _. by apply Rltb_true.
  - intros Hlt. apply Rltb_true in Hlt. by rewrite Hlt.
Qed.

Lemma createParticle_fields_witness :
  (forall n : nat, 0 <= (fun _ : nat => 1 / 2) n < 1) /\
  Particle.colorType (fst (createParticle (fun _ => 1 / 2) 1 0)) = grey.
Proof.
  assert (Hr : forall n : nat, 0 <= (fun _ : nat => 1 / 2) n < 1)
    by (intros; simpl; lra).
  split; [exact Hr |].
  destruct (createParticle_fields (fun _ => 1 / 2) 1 0 Hr)
    as (_ & _ & _ & _ & _ & _ & _ & _ & _ & _ & _ & _ & Hc).
  apply Hc. simpl. lra.
Defined.

(** X7. [initParticles] makes 80 particles and 80 opacities, all 0, from
    640 random values: the particles of index below 40 have side 0, the
    others side 1, and with [Math.random] in [0, 1) every one of them has
    its fixed fields in the ranges of [createParticle] and its position
    within the reseed bounds. *)
Theorem initParticles_population (random : nat -> R) (k : nat) :
  (forall n, 0 <= random n < 1) ->
  exists ps,
    initParticles random k = (ps, replicate 80 0, (k + 640)%nat) /\
    length ps = 80%nat /\
    forall i p, ps !! i = Some p ->
                Particle.side p = (if (i <? 40)%nat then 0 else 1)%Z /\
                wellFormed p /\ inBounds p.
Proof.
  intros Hr. destruct (initParticles_shape random k) as (ps & Hi & Hl & Hall).
  exists ps. split; [exact Hi |]. split; [exact Hl |].
  intros i p Hp. destruct (Hall i p Hp) as [kj ->].
  split; [done |]. split.
  - apply createParticle_wellFormed; [done |].
    destruct (i <? 40)%nat; [by left | by right].
  - by apply createParticle_inBounds.
Qed.

Lemma initParticles_population_witness :
  (forall n : nat, 0 <= (fun _ : nat => 1 / 2) n < 1) /\
  exists ps, initParticles (fun _ => 1 / 2) 0 = (ps, replicate 80 0, 640%nat)
             /\ length ps = 80%nat.
Proof.
  assert (Hr : forall n : nat, 0 <= (fun _ : nat => 1 / 2) n < 1)
    by (intros; simpl; lra).
  split; [exact Hr |].
  destruct (initParticles_population (fun _ => 1 / 2) 0 Hr)
    as (ps & Hi & Hl & _).
  exists ps. split; [exact Hi | exact Hl].
Defined.

Lemma projectToScreen_inBand g time p :
  -20 <= marginWidth g + width g * 0.08 ->
  width g - marginWidth g - width g * 0.08 <= width g + 20 ->
  -20 <= height g + 20 ->
  inBand g (projectToScreen g time p).
Proof.
  intros H1 H2 H3. unfold inBand, projectToScreen. simpl.
  unfold projectX, projectY. cbv zeta.
  split; [| split].
  - intros ->. simpl. unfold Rltb. repeat (destruct (Rlt_dec _ _)); lra.
  - intros Hs. apply Z.eqb_neq in Hs. rewrite Hs. unfold Rltb.
    repeat (destruct (Rlt_dec _ _)); lra.
  - unfold Rltb. repeat (destruct (Rlt_dec _ _)); lra.
Qed.

Lemma initCanvas_inBand w h time p :
  0 <= w -> 0 <= h -> inBand (initCanvas w h) (projectToScreen (initCanvas w h) time p).
Proof.
  intros Hw Hh. apply projectToScreen_inBand;
    unfold initCanvas, CONFIG.marginPercent; simpl; lra.
Qed.

(** X9. [projectToScreen] writes only the screen position and the depth
    scale; the depth scale is 0.7 + 0.006 z, so for a particle within the
    reseed bounds it lies in [0.7, 1.18]. *)
Theorem projectToScreen_depth (g : Canvas) (time : R) (p : Particle.t) :
  inBounds p ->
  let p' := projectToScreen g time p in
  sameIdentity p p' /\
  Particle.x p' = Particle.x p /\ Particle.y p' = Particle.y p /\
  Particle.z p' = Particle.z p /\
  Particle.depthScale p' = 0.7 + 0.006 * Particle.z p /\
  0.7 <= Particle.depthScale p' <= 1.18.
Proof.
  intros (_ & _ & Hz) p'. unfold p', projectToScreen, normZ. simpl.
  repeat split; try done; lra.
Qed.

Lemma projectToScreen_depth_witness :
  let p := particleAt 0 3 4 in
  inBounds p /\
  0.7 <= Particle.depthScale (projectToScreen (initCanvas 1000 800) 0 p)
      <= 1.18.
Proof.
  intros p.
  assert (Hp : inBounds p) by (unfold inBounds, p, particleAt; simpl; lra).
  split; [exact Hp |].
  by destruct (projectToScreen_depth (initCanvas 1000 800) 0 p Hp)
    as (_ & _ & _ & _ & _ & Hd).
Defined.

(** X10. On a surface of positive width the two bands are disjoint: after
    projection a left particle is at least a fifth of the width to the
    left of any right particle, so from width 350 on no left and right
    particle are within the connection distance. *)
Theorem bands_disjoint (w h time1 time2 : R) (p q : Particle.t) :
  0 < w -> Particle.side p = 0%Z -> Particle.side q <> 0%Z ->
  let g := initCanvas w h in
  let p' := projectToScreen g time1 p in
  let q' := projectToScreen g time2 q in
  Particle.screenX p' <= 0.4 * w /\ 0.6 * w <= Particle.screenX q' /\
  Particle.screenX p' + 0.2 * w <= Particle.screenX q' /\
  (350 <= w -> CONFIG.connectionDistanceSq <= distSq p' q').
Proof.
  intros Hw Hp Hq g p' q'.
  assert (Hl : Particle.screenX p' <= 0.4 * w).
  { unfold p', projectToScreen, projectX. simpl. rewrite Hp. simpl.
    unfold Rltb, CONFIG.marginPercent.
    repeat (destruct (Rlt_dec _ _)); lra. }
  assert (Hr : 0.6 * w <= Particle.screenX q').
  { unfold q', projectToScreen, projectX. simpl.
    apply Z.eqb_neq in Hq. rewrite Hq.
    unfold Rltb, CONFIG.marginPercent.
    repeat (destruct (Rlt_dec _ _)); lra. }
  split; [exact Hl |]. split; [exact Hr |]. split; [lra |].
  intros H350. unfold distSq, CONFIG.connectionDistanceSq. cbv zeta.
  set (dx := Particle.screenX q' - Particle.screenX p') in *.
  set (dy := Particle.screenY q' - Particle.screenY p').
  assert (Hdx : 70 <= dx) by (unfold dx; lra).
  pose proof (Rle_0_sqr dy) as Hdy. unfold Rsqr in Hdy.
  assert (4900 <= dx * dx) by nra. lra.
Qed.

Lemma bands_disjoint_witness :
  let g := initCanvas 1000 800 in
  0 < 1000 /\
  Particle.screenX (projectToScreen g 0 (particleAt 0 0 0)) + 0.2 * 1000
  <= Particle.screenX (projectToScreen g 0 (particleAt 1 0 0)).
Proof.
  intros g. assert (Hw : 0 < 1000) by lra. split; [exact Hw |].
  destruct (bands_disjoint 1000 800 0 0 (particleAt 0 0 0) (particleAt 1 0 0)
              Hw eq_refl) as (_ & _ & H & _); [discriminate | exact H].
Defined.

(** The mask as a function of the distance from the center line. *)
Lemma calculateOpacity_of_distance g s :
  calculateOpacity g s
  = if Rltb (distFromCenter g s) (marginInnerEdge g) then 0
    else if Rltb (distFromCenter g s - marginInnerEdge g) (fadeZone g)
         then (distFromCenter g s - marginInnerEdge g) / fadeZone g
         else 1.
Proof.
  unfold calculateOpacity, distFromCenter.
  assert (Hd : (if Rltb (centerX g) s then s - centerX g
                else centerX g - s) = Rabs (s - centerX g)).
  { unfold Rltb, Rabs.
    destruct (Rlt_dec (centerX g) s); destruct (Rcase_abs (s - centerX g));
      lra. }
  cbv zeta. by rewrite Hd.
Qed.

Lemma calculateOpacity_by_distance g s1 s2 :
  distFromCenter g s1 = distFromCenter g s2 ->
  calculateOpacity g s1 = calculateOpacity g s2.
Proof. intros Hd. by rewrite !calculateOpacity_of_distance, Hd. Qed.

(** X11. The mask is symmetric about the center line: the opacity depends
    on the screen position only through its distance from the center. *)
Theorem calculateOpacity_symmetric (g : Canvas) :
  (forall d, calculateOpacity g (centerX g + d)
             = calculateOpacity g (centerX g - d)) /\
  (forall s1 s2, distFromCenter g s1 = distFromCenter g s2 ->
                 calculateOpacity g s1 = calculateOpacity g s2).
Proof.
  split; [| apply calculateOpacity_by_distance].
  intros d. apply calculateOpacity_by_distance. unfold distFromCenter.
  replace (centerX g + d - centerX g) with d by ring.
  replace (centerX g - d - centerX g) with (- d) by ring.
  by rewrite Rabs_Ropp.
Qed.

(** X12. The mask never divides by zero: when the fade zone is empty (a
    surface of width 0) the ramp is not taken, and the opacity is 0 inside
    the inner edge and 1 from it on. *)
Theorem calculateOpacity_no_ramp (g : Canvas) (s : R) :
  fadeZone g <= 0 ->
  (distFromCenter g s < marginInnerEdge g -> calculateOpacity g s = 0) /\
  (marginInnerEdge g <= distFromCenter g s -> calculateOpacity g s = 1).
Proof.
  intros Hf. rewrite calculateOpacity_of_distance. split.
  - intros Hd. apply Rltb_true in Hd. by rewrite Hd.
  - intros Hd.
    assert (H1 : Rltb (distFromCenter g s) (marginInnerEdge g) = false)
      by (apply Rltb_false; lra).
    assert (H2 : Rltb (distFromCenter g s - marginInnerEdge g) (fadeZone g)
                 = false) by (apply Rltb_false; lra).
    by rewrite H1, H2.
Qed.

Lemma calculateOpacity_no_ramp_witness :
  fadeZone (initCanvas 0 600) <= 0 /\
  calculateOpacity (initCanvas 0 600) 12 = 1.
Proof.
  assert (Hf : fadeZone (initCanvas 0 600) <= 0)
    by (unfold initCanvas, CONFIG.fadeZonePercent; simpl; lra).
  split; [exact Hf |].
  apply (calculateOpacity_no_ramp (initCanvas 0 600) 12 Hf).
  unfold distFromCenter, initCanvas, CONFIG.marginPercent. simpl.
  pose proof (Rabs_pos (12 - 0 / 2)). lra.
Defined.

End ParticleClaims.

(** ** Further properties of a frame *)

Section FrameFacts.
Local Open Scope R_scope.
Variable random : nat -> R.
Implicit Types (ps : list Particle.t) (ops : list R) (st : State).

Lemma updateLorenz_cursor p k :
  (k <= snd (updateLorenz random p k) <= k + 3)%nat.
Proof.
  unfold updateLorenz. destruct (outOfBounds (eulerStep p)); simpl; lia.
Qed.

(** The first loop of a frame, particle by particle. *)
Lemma updateParticles_spec g time todo : forall i ops k ps' ops' k',
  updateParticles random g time i todo ops k = (ps', ops', k') ->
  length ps' = length todo /\ length ops' = length ops /\
  (k <= k' <= k + 3 * length todo)%nat /\
  (forall j p, todo !! j = Some p ->
     exists kj, ps' !! j
                = Some (projectToScreen g time
                          (fst (updateLorenz random p kj)))) /\
  (forall j p', ps' !! j = Some p' -> (i + j < length ops)%nat ->
     ops' !! (i + j)%nat = Some (calculateOpacity g (Particle.screenX p'))) /\
  (forall m, (m < i \/ i + length todo <= m)%nat -> ops' !! m = ops !! m).
Proof.
  induction todo as [| p rest IH]; intros i ops k ps' ops' k' Hu;
    simpl in Hu.
  - injection Hu as <- <- <-. repeat split; try done; try lia.
  - pose proof (updateLorenz_cursor p k) as Hk.
    destruct (updateLorenz random p k) as [p1 k1] eqn:E1. simpl in Hk.
    cbv beta iota zeta in Hu.
    set (p2 := projectToScreen g time p1) in *.
    set (ops1 := <[i := calculateOpacity g (Particle.screenX p2)]> ops).
    match type of Hu with
    | context [updateParticles random g time (S i) rest ?o k1] =>
        change o with ops1 in Hu
    end.
    destruct (updateParticles random g time (S i) rest ops1 k1)
      as [[rest' ops2] k2] eqn:E2.
    injection Hu as <- <- <-.
    destruct (IH _ _ _ _ _ _ E2) as (Hlen & Hlo & Hcur & Hps & Hops & Hout).
    assert (Hl1 : length ops1 = length ops) by apply length_insert.
    split; [simpl; by rewrite Hlen |]. split; [lia |].
    split; [simpl; lia |]. split; [| split].
    + intros [| j] q Hq; simpl in Hq.
      * injection Hq as <-. exists k. simpl. unfold p2. by rewrite E1.
      * destruct (Hps j q Hq) as [kj Hkj]. by exists kj.
    + intros [| j] q Hq Hlt; simpl in Hq.
      * injection Hq as <-. rewrite Nat.add_0_r in *.
        rewrite Hout by lia. unfold ops1.
        by apply list_lookup_insert_eq.
      * replace (i + S j)%nat with (S i + j)%nat by lia.
        apply Hops; [done | lia].
    + intros m Hm. simpl in Hm. rewrite Hout by lia.
      unfold ops1. apply list_lookup_insert_ne. lia.
Qed.

(** The two ways a tick ends. *)
Lemma render_cases st t :
  (executes st t = false /\ render random st t = Some (reschedule st, [])) \/
  (executes st t = true /\
   exists ps ops k lines,
     updateParticles random (canvas st) (time st + CONFIG.noiseSpeed) 0
                     (particles st) (opacities st) (cursor st)
     = (ps, ops, k) /\
     drawConnections ps ops (buildSpatialHash ps) = Some lines /\
     render random st t
     = Some (mkState ps ops (canvas st) (isVisible st)
                     (time st + CONFIG.noiseSpeed) t (buildSpatialHash ps) k
                     (S (animationRequests st)),
             FillRect CONFIG.bgA 0 0 (width (canvas st)) (height (canvas st))
               :: flat_map (strokeOf ps) lines
               ++ drawParticlesFrom ops 0 ps)).
Proof.
  unfold executes, render.
  destruct (isVisible st) eqn:Ev; simpl; [| by left].
  destruct (throttled t (lastFrameTime st)) eqn:Et; simpl; [by left |].
  right. split; [done |].
  destruct (updateParticles random (canvas st)
              (time st + CONFIG.noiseSpeed) 0 (particles st)
              (opacities st) (cursor st)) as [[ps ops] k] eqn:E.
  destruct (drawConnections_total ps ops) as [lines Hl].
  exists ps, ops, k, lines. rewrite Hl. by simpl.
Qed.

Lemma strokeOf_strokes ps lines :
  forallb isStroke (flat_map (strokeOf ps) lines) = true.
Proof.
  induction lines as [| l rest IH]; simpl; [done |].
  rewrite forallb_app, IH, andb_true_r. unfold strokeOf.
  by destruct (ps !! line_i l), (ps !! line_j l).
Qed.

Lemma drawParticlesFrom_images ops todo : forall i,
  forallb isImage (drawParticlesFrom ops i todo) = true /\
  (length (drawParticlesFrom ops i todo) <= length todo)%nat.
Proof.
  induction todo as [| p rest IH]; intros i; simpl; [done |].
  destruct (IH (S i)) as [Himg Hlen].
  rewrite forallb_app, length_app, Himg, andb_true_r.
  destruct (gtU (ops !! i) 0.01), (ops !! i); simpl; split; try done; lia.
Qed.

(** X13. A tick never throws and always re-schedules itself exactly once,
    whichever branch it takes; it touches neither the geometry nor the
    visibility flag and never moves the random stream backwards.  It
    draws nothing when it is skipped, and when it executes a frame it
    draws the background first, then only lines, then only sprites, at
    most one sprite per particle. *)
Theorem render_reschedules (st : State) (t : option R) :
  exists st' cmds,
    render random st t = Some (st', cmds) /\
    animationRequests st' = S (animationRequests st) /\
    canvas st' = canvas st /\ isVisible st' = isVisible st /\
    (cursor st <= cursor st')%nat /\
    (executes st t = false -> cmds = []) /\
    (executes st t = true ->
     exists strokes images,
       cmds = FillRect CONFIG.bgA 0 0 (width (canvas st)) (height (canvas st))
                :: strokes ++ images /\
       forallb isStroke strokes = true /\
       forallb isImage images = true /\
       (length images <= length (particles st))%nat).
Proof.
  destruct (render_cases st t)
    as [[He ->] | [He (ps & ops & k & lines & Hu & Hl & ->)]].
  - exists (reschedule st), []. rewrite He. by repeat split.
  - destruct (updateParticles_spec _ _ _ _ _ _ _ _ _ Hu)
      as (Hlen & _ & Hk & _).
    eexists _, _. split; [reflexivity |]. simpl. rewrite He.
    repeat split; try done; try lia.
    intros _. exists (flat_map (strokeOf ps) lines),
      (drawParticlesFrom ops 0 ps).
    split; [done |]. split; [apply strokeOf_strokes |].
    destruct (drawParticlesFrom_images ops ps 0) as [Hi Hn].
    split; [exact Hi | lia].
Qed.

(** No tick creates, destroys or re-labels a particle. *)
Lemma render_identity (st : State) (t : option R) :
  exists st' cmds,
    render random st t = Some (st', cmds) /\
    length (particles st') = length (particles st) /\
    length (opacities st') = length (opacities st) /\
    forall i p, particles st !! i = Some p ->
                exists p', particles st' !! i = Some p' /\ sameIdentity p p'.
Proof.
  destruct (render_cases st t)
    as [[He ->] | [He (ps & ops & k & lines & Hu & Hl & ->)]].
  - exists (reschedule st), []. repeat split; try done.
    intros i p Hp. exists p. by repeat split.
  - destruct (updateParticles_spec _ _ _ _ _ _ _ _ _ Hu)
      as (Hlen & Hlo & _ & Hps & _).
    eexists _, _. split; [reflexivity |]. simpl.
    split; [exact Hlen |]. split; [exact Hlo |].
    intros i p Hp. destruct (Hps i p Hp) as [kj Hkj].
    eexists. split; [exact Hkj |].
    unfold updateLorenz. destruct (outOfBounds (eulerStep p)); by repeat split.
Qed.

Lemma calculateOpacity_unit g s :
  0 <= fadeZone g -> 0 <= calculateOpacity g s <= 1.
Proof.
  intros Hf. rewrite calculateOpacity_of_distance.
  destruct (Rltb (distFromCenter g s) (marginInnerEdge g)) eqn:E1; [lra |].
  destruct (Rltb (distFromCenter g s - marginInnerEdge g) (fadeZone g))
    eqn:E2; [| lra].
  apply Rltb_false in E1. apply Rltb_true in E2.
  apply ramp_range; lra.
Qed.

(** One particle through one frame. *)
Lemma frame_particle g time p k :
  (forall n, 0 <= random n < 1) ->
  let p' := projectToScreen g time (fst (updateLorenz random p k)) in
  sameIdentity p p' /\ inBounds p' /\
  0.7 <= Particle.depthScale p' <= 1.18.
Proof.
  intros Hr p'.
  pose proof (updateLorenz_inBounds random p k Hr) as Hb.
  assert (Hid : sameIdentity p p').
  { unfold p', updateLorenz.
    destruct (outOfBounds (eulerStep p)); by repeat split. }
  split; [exact Hid |]. split; [exact Hb |].
  destruct Hb as (_ & _ & Hz). unfold p', projectToScreen, normZ. simpl. lra.
Qed.

(** X14. An executed frame leaves the state consistent: the spatial hash
    is the one built from the new screen positions, every particle is
    within the reseed bounds and within the band of its side, its depth
    scale is in [0.7, 1.18], and an opacity between 0 and 1 is stored
    for it. *)
Theorem frame_postcondition (st : State) (t : option R) (w h : R) :
  (forall n, 0 <= random n < 1) ->
  0 <= w -> 0 <= h -> canvas st = initCanvas w h ->
  executes st t = true ->
  exists st' cmds,
    render random st t = Some (st', cmds) /\
    spatialHash st' = buildSpatialHash (particles st') /\
    forall i p', particles st' !! i = Some p' ->
      inBounds p' /\ inBand (canvas st') p' /\
      0.7 <= Particle.depthScale p' <= 1.18 /\
      ((i < length (opacities st))%nat ->
       exists o, opacities st' !! i = Some o /\ 0 <= o <= 1).
Proof.
  intros Hr Hw Hh Hg He.
  destruct (render_cases st t)
    as [[He' _] | [_ (ps & ops & k & lines & Hu & Hl & ->)]]; [congruence |].
  destruct (updateParticles_spec _ _ _ _ _ _ _ _ _ Hu)
    as (Hlen & Hlo & _ & Hps & Hops & _).
  eexists _, _. split; [reflexivity |]. simpl. split; [done |].
  intros i p' Hp'.
  assert (Hi : (i < length (particles st))%nat)
    by (rewrite <- Hlen; by apply lookup_lt_Some in Hp').
  destruct (lookup_lt_is_Some_2 _ _ Hi) as [p Hp].
  destruct (Hps i p Hp) as [kj Hkj].
  assert (p' = projectToScreen (canvas st) (time st + CONFIG.noiseSpeed)
                 (fst (updateLorenz random p kj))) as -> by congruence.
  destruct (frame_particle (canvas st) (time st + CONFIG.noiseSpeed) p kj Hr)
    as (_ & Hb & Hd).
  split; [exact Hb |]. split; [rewrite Hg; by apply initCanvas_inBand |].
  split; [exact Hd |]. intros Hlt. eexists. split.
  - by apply (Hops i _ Hp').
  - apply calculateOpacity_unit. rewrite Hg.
    unfold initCanvas, CONFIG.fadeZonePercent. simpl. lra.
Qed.

End FrameFacts.

Section FrameWitness.
Local Open Scope R_scope.

Lemma frame_postcondition_witness :
  let st := mkState [particleAt 0 0 0] [0] (initCanvas 1000 800) true 0
                    (Some 0) ∅ 0 0 in
  (forall n : nat, 0 <= (fun _ : nat => 1 / 2) n < 1) /\
  executes st (Some 40) = true /\
  exists st' cmds,
    render (fun _ => 1 / 2) st (Some 40) = Some (st', cmds) /\
    spatialHash st' = buildSpatialHash (particles st').
Proof.
  intros st.
  assert (Hr : forall n : nat, 0 <= (fun _ : nat => 1 / 2) n < 1)
    by (intros; simpl; lra).
  assert (He : executes st (Some 40) = true).
  { unfold executes, st, throttled, FRAME_INTERVAL, TARGET_FPS. simpl.
    assert (Rltb (40 - 0) (1000 / 30) = false) as ->
      by (apply Rltb_false; lra).
    reflexivity. }
  split; [exact Hr |]. split; [exact He |].
  assert (H0 : 0 <= 1000) by lra. assert (H1 : 0 <= 800) by lra.
  destruct (frame_postcondition (fun _ => 1 / 2) st (Some 40) 1000 800
              Hr H0 H1 eq_refl He) as (st' & cmds & Hrender & Hh & _).
  exists st', cmds. split; [exact Hrender | exact Hh].
Defined.

End FrameWitness.

(** ** Further properties of the two drawing passes *)

Section Passes.
Local Open Scope R_scope.
Implicit Types (ps : list Particle.t) (ops : list R).

(** A line that is stroked is short and faint: its alpha is at most a
    quarter, and the threshold on the alpha bounds its length. *)
Lemma connects_bounds ps ops i p1 j a :
  (forall o, In o ops -> o <= 1) ->
  connects ps ops i p1 j a ->
  0.01 < a <= 0.25 /\
  exists p2, ps !! j = Some p2 /\ screenDistance p1 p2 < 67.2.
Proof.
  intros Hops (p2 & o1 & o2 & Hp2 & Ho1 & Ho2 & _ & _ & Hv1 & Hv2 & Hd
                 & -> & Ha).
  pose proof (distance_factor p1 p2 Hd) as Hf.
  assert (H1 : o1 <= 1)
    by (apply Hops, list_elem_of_In, list_elem_of_lookup; by exists i).
  assert (H2 : o2 <= 1)
    by (apply Hops, list_elem_of_In, list_elem_of_lookup; by exists j).
  assert (Hm : 0.01 < Rmin o1 o2 <= 1).
  { unfold Rmin. destruct (Rle_dec o1 o2); lra. }
  set (f := 1 - screenDistance p1 p2 / 70) in *.
  set (m := Rmin o1 o2) in *.
  assert (Hfm : f * m <= f) by nra.
  split; [lra |]. exists p2. split; [done |].
  assert (Hf4 : 0.04 < f) by nra.
  unfold f in Hf4. lra.
Qed.

(** X16. When no opacity exceeds 1, every line of a connection pass has
    its alpha in (0.01, 0.25] and joins two particles less than 67.2
    pixels apart: beyond that distance the alpha falls under the
    threshold 0.01 before the connection distance 70 is reached. *)
Theorem drawConnections_bounds ps ops :
  (forall o, In o ops -> o <= 1) ->
  exists lines,
    drawConnections ps ops (buildSpatialHash ps) = Some lines /\
    forall l, In l lines ->
      0.01 < line_alpha l <= 0.25 /\
      exists p1 p2,
        ps !! line_i l = Some p1 /\ ps !! line_j l = Some p2 /\
        screenDistance p1 p2 < 67.2.
Proof.
  intros Hops. destruct (drawConnections_total ps ops) as [lines Hc].
  exists lines. split; [exact Hc |]. intros l Hl.
  apply (drawConnections_spec _ _ _ _ Hc) in Hl.
  destruct Hl as (i & p1 & j & a & Hp1 & _ & -> & Hcn). simpl.
  destruct (connects_bounds _ _ _ _ _ _ Hops Hcn) as (Ha & p2 & Hp2 & Hd).
  split; [exact Ha |]. by exists p1, p2.
Qed.

Lemma drawConnections_bounds_witness :
  let ps := [particleAt 0 0 0; particleAt 0 10 0] in
  (forall o, In o [1; 1] -> o <= 1) /\
  exists lines,
    drawConnections ps [1; 1] (buildSpatialHash ps) = Some lines /\
    forall l, In l lines -> 0.01 < line_alpha l <= 0.25.
Proof.
  intros ps.
  assert (Hops : forall o, In o [1; 1] -> o <= 1)
    by (intros o [<- | [<- | []]]; lra).
  split; [exact Hops |].
  destruct (drawConnections_bounds ps [1; 1] Hops) as (lines & Hc & Hall).
  exists lines. split; [exact Hc |]. intros l Hl.
  by destruct (Hall l Hl).
Defined.

Lemma drawParticlesFrom_spec ops todo : forall i c,
  In c (drawParticlesFrom ops i todo) <->
  exists k p o, todo !! k = Some p /\ ops !! (i + k)%nat = Some o /\
                0.01 < o /\ c = drawParticle p o.
Proof.
  induction todo as [| p rest IH]; intros i c; simpl.
  - split; [done |]. intros (k & q & o & Hq & _). by rewrite lookup_nil in Hq.
  - rewrite in_app_iff, IH. split.
    + intros [Hc | (k & q & o & Hq & Ho & Hv & ->)].
      * destruct (ops !! i) as [o |] eqn:Eo; simpl in Hc; [| done].
        destruct (Rltb 0.01 o) eqn:Ev; [| done].
        destruct Hc as [<- | []]. apply Rltb_true in Ev.
        exists 0%nat, p, o. rewrite Nat.add_0_r. by repeat split.
      * exists (S k), q, o.
        replace (i + S k)%nat with (S i + k)%nat by lia. by repeat split.
    + intros (k & q & o & Hq & Ho & Hv & ->).
      destruct k as [| k]; simpl in Hq.
      * injection Hq as <-. rewrite Nat.add_0_r in Ho. left.
        rewrite Ho. simpl. apply Rltb_true in Hv. rewrite Hv. by left.
      * right. exists k, q, o.
        replace (S i + k)%nat with (i + S k)%nat by lia. by repeat split.
Qed.

(** X17. The particle pass draws a sprite for particle i exactly when its
    opacity is above 0.01 (a missing opacity included: no sprite), and the
    sprite is [drawParticle] of that particle and that opacity: the image
    of its colour, alpha opacity * brightness, on the square of side
    8 * size * depthScale centred on the screen position. *)
Theorem drawParticles_exactly ps ops :
  (forall c,
      In c (drawParticlesFrom ops 0 ps) <->
      exists i p o, ps !! i = Some p /\ ops !! i = Some o /\ 0.01 < o /\
                    c = drawParticle p o) /\
  (forall p o,
      exists x y w,
        drawParticle p o
        = DrawImage (Particle.colorType p) (o * Particle.brightness p)
                    x y w w /\
        w = 8 * Particle.size p * Particle.depthScale p /\
        x + w / 2 = Particle.screenX p /\ y + w / 2 = Particle.screenY p).
Proof.
  split.
  - intros c. apply drawParticlesFrom_spec.
  - intros p o. unfold drawParticle. eexists _, _, _.
    split; [reflexivity |]. repeat split; lra.
Qed.

End Passes.

(** ** Further properties of the scheduler *)

Section SchedulerFacts.
Local Open Scope R_scope.
Variable random : nat -> R.

(** X18. The throttle, seen on two calls of [render]: after a frame
    executed at timestamp c, a tick at most 33.333 ms later is skipped (it
    draws nothing and changes no particle, opacity, time or last frame
    time), and a tick at least 1000/30 ms later executes the next frame
    (the background is drawn again, the time has advanced twice). *)
Theorem render_throttles (st : State) (c : R) :
  isVisible st = true ->
  (forall l, lastFrameTime st = Some l -> 1000 / 30 <= c - l) ->
  exists st1 cmds1,
    render random st (Some c) = Some (st1, cmds1) /\
    time st1 = time st + 0.0006 /\
    (forall c', c' - c <= 33.333 ->
       exists st2,
         render random st1 (Some c') = Some (st2, []) /\
         time st2 = time st1 /\ particles st2 = particles st1 /\
         opacities st2 = opacities st1 /\ lastFrameTime st2 = Some c) /\
    (forall c', 1000 / 30 <= c' - c ->
       exists st2 rest,
         render random st1 (Some c')
         = Some (st2, FillRect CONFIG.bgA 0 0 (width (canvas st))
                               (height (canvas st)) :: rest) /\
         time st2 = time st + 0.0012 /\ lastFrameTime st2 = Some c').
Proof.
  intros Hv Hlate.
  assert (He : executes st (Some c) = true).
  { unfold executes. rewrite Hv. simpl. apply negb_true_iff.
    unfold throttled, FRAME_INTERVAL, TARGET_FPS.
    destruct (lastFrameTime st) as [l |] eqn:El; [| done].
    apply Rltb_false. by apply Hlate. }
  destruct (render_cases random st (Some c))
    as [[He' _] | [_ (ps & ops & k & lines & Hu & Hl & Hr)]]; [congruence |].
  rewrite Hr. eexists _, _. split; [reflexivity |]. split; [done |].
  split.
  - intros c' Hc'. eexists. split.
    + apply render_skip. right. simpl.
      unfold FRAME_INTERVAL, TARGET_FPS. apply Rltb_true. lra.
    + by simpl.
  - intros c' Hc'.
    match goal with
    | |- context [render random ?s (Some c')] =>
        destruct (render_cases random s (Some c'))
          as [[He' _] | [_ (ps2 & ops2 & k2 & lines2 & _ & _ & Hr2)]]
    end.
    + exfalso. unfold executes in He'. simpl in He'. rewrite Hv in He'.
      simpl in He'. apply negb_false_iff in He'.
      unfold FRAME_INTERVAL, TARGET_FPS in He'. apply Rltb_true in He'. lra.
    + rewrite Hr2. simpl. eexists _, _. split; [reflexivity |]. simpl.
      unfold CONFIG.noiseSpeed. split; [lra | done].
Qed.

(** While hidden, ticks only count animation requests. *)
Lemma ticks_hidden stamps : forall st,
  isVisible st = false ->
  ticks random st stamps
  = Some (mkState (particles st) (opacities st) (canvas st) false (time st)
                  (lastFrameTime st) (spatialHash st) (cursor st)
                  (animationRequests st + length stamps)) /\
  framesExecuted random st stamps = 0%nat.
Proof.
  induction stamps as [| t rest IH]; intros st Hv; simpl.
  - rewrite Nat.add_0_r. split; [| done]. f_equal. destruct st. simpl in *.
    by subst.
  - rewrite render_skip by (by left). simpl.
    destruct (IH (reschedule st) Hv) as [-> ->]. simpl.
    unfold executes. rewrite Hv. simpl. split; [| done].
    do 2 f_equal. lia.
Qed.

(** X19. Pausing loses nothing: hiding the page, letting any number of
    ticks pass and showing it again gives back the state before the pause,
    visible, with one animation request counted per tick and no frame
    executed. *)
Theorem pause_resume (st : State) (stamps : list (option R)) :
  exists st',
    ticks random (handleVisibilityChange st true) stamps = Some st' /\
    framesExecuted random (handleVisibilityChange st true) stamps = 0%nat /\
    handleVisibilityChange st' false
    = mkState (particles st) (opacities st) (canvas st) true (time st)
              (lastFrameTime st) (spatialHash st) (cursor st)
              (animationRequests st + length stamps).
Proof.
  destruct (ticks_hidden stamps (handleVisibilityChange st true) eq_refl)
    as [Ht Hf].
  eexists. split; [exact Ht |]. split; [exact Hf |]. reflexivity.
Qed.

(** X20. Along any sequence of ticks the simulation time is the number of
    executed frames times 0.0006, whatever the timestamps, and every tick
    counts one animation request. *)
Theorem ticks_trace (stamps : list (option R)) : forall st,
  exists st',
    ticks random st stamps = Some st' /\
    time st' = time st + INR (framesExecuted random st stamps) * 0.0006 /\
    (framesExecuted random st stamps <= length stamps)%nat /\
    animationRequests st' = (animationRequests st + length stamps)%nat /\
    length (particles st') = length (particles st).
Proof.
  induction stamps as [| t rest IH]; intros st; simpl.
  - exists st. simpl. repeat split; try lia. lra.
  - destruct (render_cases random st t)
      as [[He ->] | [He (ps & ops & k & lines & Hu & Hl & ->)]]; simpl.
    + destruct (IH (reschedule st)) as (st' & -> & Ht & Hn & Ha & Hp).
      exists st'. rewrite He. simpl in *.
      repeat split; try done; try lia.
    + destruct (updateParticles_spec _ _ _ _ _ _ _ _ _ _ Hu) as (Hlen & _).
      match goal with
      | |- context [ticks random ?s rest] =>
          destruct (IH s) as (st' & -> & Ht & Hn & Ha & Hp)
      end.
      exists st'. rewrite He, plus_INR. simpl in *.
      split; [done |]. split.
      * rewrite Ht. unfold CONFIG.noiseSpeed. lra.
      * repeat split; try lia.
Qed.

End SchedulerFacts.

Section SchedulerWitness.
Local Open Scope R_scope.

Lemma render_throttles_witness :
  let st := mkState [particleAt 0 0 0] [0] (initCanvas 1000 800) true 0
                    (Some 0) ∅ 0 0 in
  (forall l, lastFrameTime st = Some l -> 1000 / 30 <= 40 - l) /\
  exists st1 cmds1 st2,
    render (fun _ => 1 / 2) st (Some 40) = Some (st1, cmds1) /\
    render (fun _ => 1 / 2) st1 (Some 60) = Some (st2, []) /\
    time st2 = 0 + 0.0006.
Proof.
  intros st.
  assert (Hl : forall l, lastFrameTime st = Some l -> 1000 / 30 <= 40 - l).
  { intros l [= <-]. lra. }
  split; [exact Hl |].
  destruct (render_throttles (fun _ => 1 / 2) st 40 eq_refl Hl)
    as (st1 & cmds1 & Hr & Ht & Hskip & _).
  destruct (Hskip 60) as (st2 & Hr2 & Ht2 & _); [lra |].
  exists st1, cmds1, st2. split; [exact Hr |]. split; [exact Hr2 |].
  rewrite Ht2. exact Ht.
Defined.

End SchedulerWitness.

(** ** Properties of whole runs *)

Section Runs.
Local Open Scope R_scope.
Variable random : nat -> R.

Lemma sameIdentity_refl p : sameIdentity p p.
Proof. by repeat split. Qed.

Lemma sameIdentity_trans p q r :
  sameIdentity p q -> sameIdentity q r -> sameIdentity p r.
Proof.
  unfold sameIdentity. intros (A1 & A2 & A3 & A4 & A5 & A6)
    (B1 & B2 & B3 & B4 & B5 & B6).
  repeat split; congruence.
Qed.

Lemma wellFormed_sameIdentity p q :
  sameIdentity p q -> wellFormed p -> wellFormed q.
Proof.
  unfold sameIdentity, wellFormed.
  intros (A1 & A2 & A3 & A4 & A5 & A6) H.
  rewrite <- A1, <- A3, <- A4, <- A5, <- A6. exact H.
Qed.

Lemma handle_identity st e :
  exists st',
    handle random st e = Some st' /\
    length (particles st') = length (particles st) /\
    length (opacities st') = length (opacities st) /\
    forall i p, particles st !! i = Some p ->
                exists p', particles st' !! i = Some p' /\ sameIdentity p p'.
Proof.
  destruct e as [t | w h | hidden]; simpl.
  - destruct (render_identity random st t) as (st' & cmds & -> & H).
    by exists st'.
  - eexists. split; [reflexivity |]. simpl. repeat split; try done.
    intros i p Hp. exists p. split; [done | apply sameIdentity_refl].
  - eexists. split; [reflexivity |]. simpl. repeat split; try done.
    intros i p Hp. exists p. split; [done | apply sameIdentity_refl].
Qed.

Lemma run_identity events : forall st,
  exists st',
    run random st events = Some st' /\
    length (particles st') = length (particles st) /\
    length (opacities st') = length (opacities st) /\
    forall i p, particles st !! i = Some p ->
                exists p', particles st' !! i = Some p' /\ sameIdentity p p'.
Proof.
  induction events as [| e rest IH]; intros st; simpl.
  - exists st. repeat split; try done.
    intros i p Hp. exists p. split; [done | apply sameIdentity_refl].
  - destruct (handle_identity st e) as (st1 & -> & L1 & O1 & I1). simpl.
    destruct (IH st1) as (st' & Hr & L2 & O2 & I2).
    exists st'. split; [exact Hr |]. split; [congruence |].
    split; [congruence |].
    intros i p Hp. destruct (I1 i p Hp) as (p1 & Hp1 & S1).
    destruct (I2 i p1 Hp1) as (p' & Hp' & S2).
    exists p'. split; [done | by apply (sameIdentity_trans p p1 p')].
Qed.

(** X21. No sequence of ticks, resizes and visibility changes throws,
    creates, destroys or re-labels a particle: the number of particles
    and of opacities is kept and every particle keeps its side, colour,
    size, brightness and noise seeds.  From [init] on there are always 80
    particles and 80 opacities, the particles of index below 40 on side 0
    and the others on side 1. *)
Theorem run_keeps_population (events : list Event) :
  (forall st,
      exists st',
        run random st events = Some st' /\
        length (particles st') = length (particles st) /\
        length (opacities st') = length (opacities st) /\
        forall i p, particles st !! i = Some p ->
                    exists p', particles st' !! i = Some p' /\
                               sameIdentity p p') /\
  (forall innerWidth innerHeight,
      exists st',
        run random (initialState random innerWidth innerHeight) events
        = Some st' /\
        length (particles st') = 80%nat /\
        length (opacities st') = 80%nat /\
        forall i p, particles st' !! i = Some p ->
                    Particle.side p = (if (i <? 40)%nat then 0 else 1)%Z).
Proof.
  split; [apply run_identity |].
  intros w h.
  destruct (run_identity events (initialState random w h))
    as (st' & Hr & L & O & I).
  exists st'. split; [exact Hr |].
  unfold initialState in L, O, I.
  destruct (initParticles_shape random 0) as (ps & Hinit & Hl & Hall).
  rewrite Hinit in L, O, I. simpl in L, O, I.
  split; [congruence |]. split; [exact O |].
  intros i p' Hp'.
  assert (Hi : (i < length ps)%nat)
    by (rewrite <- L; by apply lookup_lt_Some in Hp').
  destruct (lookup_lt_is_Some_2 _ _ Hi) as [p Hp].
  destruct (I i p Hp) as (q & Hq & Hs). assert (q = p') as -> by congruence.
  destruct Hs as (<- & _). destruct (Hall i p Hp) as [kj ->]. done.
Qed.

Hypothesis random_range : forall n, 0 <= random n < 1.

Lemma healthy_initialState w h :
  0 <= w -> 0 <= h -> healthy (initialState random w h).
Proof.
  intros Hw Hh. unfold initialState.
  destruct (initParticles_shape random 0) as (ps & -> & Hl & Hall).
  unfold healthy. cbn [particles opacities canvas].
  split; [by exists w, h |].
  split; [by rewrite length_replicate |]. split.
  - intros p Hp. apply list_elem_of_In, list_elem_of_lookup in Hp.
    destruct Hp as [i Hp]. destruct (Hall i p Hp) as [kj ->].
    split; [| split].
    + apply createParticle_wellFormed; [done |].
      destruct (i <? 40)%nat; [by left | by right].
    + by apply createParticle_inBounds.
    + simpl. lra.
  - intros o Ho. apply list_elem_of_In, elem_of_replicate in Ho.
    destruct Ho as [-> _]. lra.
Qed.

Lemma drawParticle_inRange p o :
  wellFormed p -> 0.7 <= Particle.depthScale p <= 1.18 -> 0.01 < o <= 1 ->
  cmdInRange (drawParticle p o).
Proof.
  intros (Hs & Hb & _) Hd Ho. unfold drawParticle, cmdInRange.
  set (s := Particle.size p) in *. set (d := Particle.depthScale p) in *.
  set (b := Particle.brightness p) in *.
  assert (0.7 <= s * d) by nra. assert (s * d < 4.13) by nra.
  repeat split; nra.
Qed.

(** A tick on a healthy state gives a healthy state and draws within the
    ranges. *)
Lemma render_healthy st t :
  healthy st ->
  exists st' cmds,
    render random st t = Some (st', cmds) /\ healthy st' /\
    forall c, In c cmds -> cmdInRange c.
Proof.
  intros (Hg & Hlen & Hps & Hops).
  destruct (render_cases random st t)
    as [[He ->] | [He (ps & ops & k & lines & Hu & Hl & ->)]].
  - exists (reschedule st), []. split; [done |]. split; [| done].
    exact (conj Hg (conj Hlen (conj Hps Hops))).
  - destruct (updateParticles_spec _ _ _ _ _ _ _ _ _ _ Hu)
      as (Lp & Lo & _ & Sps & Sops & _).
    destruct Hg as (w & h & Hw & Hh & Hg).
    assert (Hps' : forall p', In p' ps ->
               wellFormed p' /\ inBounds p' /\
               0.7 <= Particle.depthScale p' <= 1.18).
    { intros p' Hp'. apply list_elem_of_In, list_elem_of_lookup in Hp'.
      destruct Hp' as [i Hp'].
      assert (Hi : (i < length (particles st))%nat)
        by (rewrite <- Lp; by apply lookup_lt_Some in Hp').
      destruct (lookup_lt_is_Some_2 _ _ Hi) as [p Hp].
      destruct (Sps i p Hp) as [kj Hkj].
      assert (p' = projectToScreen (canvas st) (time st + CONFIG.noiseSpeed)
                     (fst (updateLorenz random p kj))) as -> by congruence.
      destruct (frame_particle random (canvas st)
                  (time st + CONFIG.noiseSpeed) p kj random_range)
        as (Hid & Hb & Hd).
      split; [| by split].
      apply (wellFormed_sameIdentity p); [done |].
      apply Hps, list_elem_of_In, list_elem_of_lookup. by exists i. }
    assert (Hops' : forall o, In o ops -> 0 <= o <= 1).
    { intros o Ho. apply list_elem_of_In, list_elem_of_lookup in Ho.
      destruct Ho as [i Ho].
      assert (Hi : (i < length ps)%nat)
        by (rewrite Lp, <- Hlen, <- Lo; by apply lookup_lt_Some in Ho).
      destruct (lookup_lt_is_Some_2 _ _ Hi) as [p' Hp'].
      assert (Hio : (0 + i < length (opacities st))%nat)
        by (rewrite Hlen, <- Lp; simpl; lia).
      pose proof (Sops i p' Hp' Hio) as Hset. simpl in Hset.
      assert (o = calculateOpacity (canvas st) (Particle.screenX p')) as ->
        by congruence.
      apply calculateOpacity_unit. rewrite Hg.
      unfold initCanvas, CONFIG.fadeZonePercent. simpl. lra. }
    eexists _, _. split; [reflexivity |]. split.
    + unfold healthy. simpl. split; [by exists w, h |].
      split; [congruence |]. by split.
    + intros c [<- | Hc].
      * unfold cmdInRange, CONFIG.bgA. reflexivity.
      * apply in_app_iff in Hc. destruct Hc as [Hc | Hc].
        -- apply in_flat_map in Hc. destruct Hc as (l & Hin & Hc).
           apply (drawConnections_spec _ _ _ _ Hl) in Hin.
           destruct Hin as (i & p1 & j & a & Hp1 & _ & -> & Hcn).
           assert (Hle : forall o, In o ops -> o <= 1)
             by (intros o Ho; by destruct (Hops' o Ho)).
           destruct (connects_bounds _ _ _ _ _ _ Hle Hcn)
             as (Ha & p2 & Hp2 & _).
           unfold strokeOf in Hc. simpl in Hc. rewrite Hp1, Hp2 in Hc.
           destruct Hc as [<- | []]. exact Ha.
        -- apply drawParticlesFrom_spec in Hc.
           destruct Hc as (i & p & o & Hp & Ho & Hv & ->). simpl in Ho.
           assert (Hp' : In p ps)
             by (apply list_elem_of_In, list_elem_of_lookup; by exists i).
           assert (Ho' : In o ops)
             by (apply list_elem_of_In, list_elem_of_lookup; by exists i).
           destruct (Hps' p Hp') as (Hwf & _ & Hd).
           destruct (Hops' o Ho') as [_ Ho1].
           apply drawParticle_inRange; [done | done | lra].
Qed.

Lemma handle_healthy st e :
  healthy st ->
  (forall w h, e = Resize w h -> 0 <= w /\ 0 <= h) ->
  exists st', handle random st e = Some st' /\ healthy st'.
Proof.
  intros Hst He. destruct e as [t | w h | hidden]; simpl.
  - destruct (render_healthy st t Hst) as (st' & cmds & -> & Hh & _).
    by exists st'.
  - destruct (He w h eq_refl) as [Hw Hh].
    eexists. split; [reflexivity |].
    destruct Hst as (_ & Hlen & Hps & Hops).
    unfold healthy. simpl. split; [by exists w, h | done].
  - eexists. split; [reflexivity |].
    destruct Hst as (Hg & Hlen & Hps & Hops). by unfold healthy.
Qed.

Lemma run_healthy events : forall st,
  healthy st -> nonNegativeResizes events ->
  exists st', run random st events = Some st' /\ healthy st'.
Proof.
  induction events as [| e rest IH]; intros st Hst Hev; simpl.
  - by exists st.
  - destruct (handle_healthy st e Hst) as (st1 & -> & H1).
    { intros w h ->. apply Hev. by left. }
    simpl. apply IH; [done |]. intros w h Hin. apply Hev. by right.
Qed.

End Runs.

Section RunClaims.
Local Open Scope R_scope.

(** X22. Whatever the page does after [init] (ticks with any timestamps,
    resizes to non-negative sizes, visibility changes), with [Math.random]
    in [0, 1): the state stays well-formed (sizes in [1, 3.5), brightness
    in [0.4, 1), positions within the reseed bounds, depth scales in
    [0.7, 1.18], opacities in [0, 1]) and everything a tick draws is in
    range: the background with alpha 0.03, lines with alpha in
    (0.01, 0.25], sprites with alpha in (0.004, 1) on squares of side in
    [5.6, 33.04). *)
Theorem run_draws_in_range (random : nat -> R) (innerWidth innerHeight : R)
        (events : list Event) :
  (forall n, 0 <= random n < 1) ->
  0 <= innerWidth -> 0 <= innerHeight ->
  nonNegativeResizes events ->
  exists st,
    run random (initialState random innerWidth innerHeight) events = Some st /\
    healthy st /\
    forall t, exists st' cmds,
      render random st t = Some (st', cmds) /\
      forall c, In c cmds -> cmdInRange c.
Proof.
  intros Hr Hw Hh Hev.
  destruct (run_healthy random Hr events
              (initialState random innerWidth innerHeight))
    as (st & Hrun & Hst); [by apply healthy_initialState | done |].
  exists st. split; [exact Hrun |]. split; [exact Hst |].
  intros t. destruct (render_healthy random Hr st t Hst)
    as (st' & cmds & Hrender & _ & Hc).
  by exists st', cmds.
Qed.

Lemma run_draws_in_range_witness :
  let random := fun _ : nat => 1 / 2 in
  let events := [Tick None; Resize 1200 700; Visibility true; Tick (Some 16);
                 Visibility false; Tick (Some 50)] in
  (forall n : nat, 0 <= random n < 1) /\ nonNegativeResizes events /\
  exists st, run random (initialState random 1000 800) events = Some st /\
             healthy st.
Proof.
  intros random events.
  assert (Hr : forall n : nat, 0 <= random n < 1)
    by (intros; unfold random; lra).
  assert (Hev : nonNegativeResizes events).
  { intros w h Hin. unfold events in Hin. simpl in Hin.
    destruct Hin as [H | [H | [H | [H | [H | [H | []]]]]]];
      try discriminate H.
    injection H as <- <-. lra. }
  split; [exact Hr |]. split; [exact Hev |].
  assert (H0 : 0 <= 1000) by lra. assert (H1 : 0 <= 800) by lra.
  destruct (run_draws_in_range random 1000 800 events Hr H0 H1 Hev)
    as (st & Hrun & Hst & _).
  by exists st.
Defined.

End RunClaims.

(** ** The connection pass inside a frame *)

Section ConnectionsInFrame.
Local Open Scope R_scope.
Variable random : nat -> R.
Implicit Types (ps : list Particle.t) (ops : list R).

(** Every line of a pass becomes one stroke, in order, from the first
    particle's screen position to the second's, with the line's alpha. *)
Lemma strokes_of_lines ps lines :
  (forall l, In l lines ->
             is_Some (ps !! line_i l) /\ is_Some (ps !! line_j l)) ->
  Forall2
    (fun l c =>
       exists p1 p2,
         ps !! line_i l = Some p1 /\ ps !! line_j l = Some p2 /\
         c = Stroke (line_alpha l)
                    (Particle.screenX p1) (Particle.screenY p1)
                    (Particle.screenX p2) (Particle.screenY p2))
    lines (flat_map (strokeOf ps) lines).
Proof.
  induction lines as [| l rest IH]; intros Hin; simpl; [constructor |].
  destruct (Hin l) as [[p1 Hp1] [p2 Hp2]]; [by left |].
  unfold strokeOf at 1. rewrite Hp1, Hp2. simpl. constructor.
  - by exists p1, p2.
  - apply IH. intros l' Hl'. apply Hin. by right.
Qed.

(** C6. In an executed frame [render] strokes, after the background and
    before the sprites, exactly one line per pair (i, j) such that j is
    returned by the neighbour query for i, j > i, both particles have
    the same side, both opacities are above 0.01, the squared screen
    distance is below 4900 and the alpha
    (1 - dist / 70) * 0.25 * min(opacity_i, opacity_j) is above 0.01; the
    stroke goes from the screen position of i to that of j with exactly
    that alpha.  When the frame leaves two left particles of opacity 1,
    at screen distance 10 the one stroke has alpha 3/14, and at distance
    80 nothing is stroked. *)
Theorem render_strokes_exactly (st : State) (t : option R) :
  isVisible st = true ->
  (forall c l, t = Some c -> lastFrameTime st = Some l ->
               1000 / 30 <= c - l) ->
  exists st' lines strokes images,
    render random st t
    = Some (st', FillRect CONFIG.bgA 0 0 (width (canvas st))
                          (height (canvas st)) :: strokes ++ images) /\
    (forall c, In c images -> exists s a x y w h, c = DrawImage s a x y w h) /\
    (forall i j a,
        In (mkLine i j a) lines <->
        exists p1,
          particles st' !! i = Some p1 /\
          In j (getNearbyParticles (spatialHash st') p1) /\
          connects (particles st') (opacities st') i p1 j a) /\
    NoDup lines /\
    Forall2
      (fun l c =>
         exists p1 p2,
           particles st' !! line_i l = Some p1 /\
           particles st' !! line_j l = Some p2 /\
           c = Stroke (line_alpha l)
                      (Particle.screenX p1) (Particle.screenY p1)
                      (Particle.screenX p2) (Particle.screenY p2))
      lines strokes /\
    (forall p1 p2,
        particles st' = [p1; p2] -> opacities st' = [1; 1] ->
        Particle.side p1 = 0%Z -> Particle.side p2 = 0%Z ->
        (screenDistance p1 p2 = 10 ->
         strokes = [Stroke (3 / 14)
                           (Particle.screenX p1) (Particle.screenY p1)
                           (Particle.screenX p2) (Particle.screenY p2)]) /\
        (screenDistance p1 p2 = 80 -> strokes = [])).
Proof.
  intros Hv Hlate.
  assert (He : executes st t = true).
  { unfold executes. rewrite Hv. simpl. apply negb_true_iff.
    destruct (throttled t (lastFrameTime st)) eqn:E; [| done].
    apply throttled_true in E. destruct E as (c & l & Ht & Hl & Hlt).
    specialize (Hlate c l Ht Hl). lra. }
  destruct (render_cases random st t)
    as [[He' _] | [_ (ps & ops & k & lines & Hu & Hl & ->)]]; [congruence |].
  eexists _, lines, (flat_map (strokeOf ps) lines),
    (drawParticlesFrom ops 0 ps).
  split; [reflexivity |]. simpl.
  assert (Hspec := drawConnections_spec _ _ _ _ Hl).
  split; [| split; [| split; [| split]]].
  - intros c Hc. apply drawParticlesFrom_spec in Hc.
    destruct Hc as (i & p & o & _ & _ & _ & ->). unfold drawParticle.
    by eexists _, _, _, _, _, _.
  - intros i j a. rewrite Hspec. split.
    + intros (i' & p1 & j' & a' & Hp1 & Hj & Heq & Hcn).
      injection Heq as -> -> ->. by exists p1.
    + intros (p1 & Hp1 & Hj & Hcn). by exists i, p1, j, a.
  - by apply (drawConnections_NoDup _ _ _ Hl).
  - apply strokes_of_lines. intros l Hin. apply Hspec in Hin.
    destruct Hin as (i & p1 & j & a & Hp1 & _ & -> & Hcn). simpl.
    destruct Hcn as (p2 & _ & _ & Hp2 & _). split; by eexists.
  - intros p1 p2 -> -> Hs1 Hs2.
    destruct drawConnections_lines as (_ & H10 & H80). split.
    + intros Hd. rewrite (H10 p1 p2 Hs1 Hs2 Hd) in Hl.
      injection Hl as <-. reflexivity.
    + intros Hd. rewrite (H80 p1 p2 Hs1 Hs2 Hd) in Hl.
      injection Hl as <-. reflexivity.
Qed.

End ConnectionsInFrame.

(** ** A frame computed by hand

    Two left particles that the Euler step leaves at x = y = 0 and at
    x = y = 625/144, with noise seeds 0, on a surface 1000 wide and 0
    high, at a simulation time that the frame brings to 0: the noise is
    [smoothNoise 0 0 0 = 0.2], the screen positions are (69.12, 0) and
    (79.12, 0), both opacities are 1 and the frame strokes one line of
    alpha 3/14 between them. *)

Section HandFrame.
Local Open Scope R_scope.

Lemma smoothNoise_origin x y t :
  x = 0 -> y = 0 -> t = 0 -> smoothNoise x y t = 0.2.
Proof.
  intros -> -> ->. unfold smoothNoise.
  replace (0 * 1.3 + 0) with 0 by lra.
  replace (0 * 0.9 + 0 * 0.7) with 0 by lra.
  replace (0 * 2.1 - 0 * 0.5) with 0 by lra.
  replace (0 * 1.7 + 0 * 0.3) with 0 by lra.
  replace (0 * 0.8 + 0 * 1.1 + 0 * 0.9) with 0 by lra.
  rewrite sin_0, cos_0. lra.
Qed.

Lemma rem1_zero a : a = 0 -> rem1 a = 0.
Proof.
  intros ->. unfold rem1. rewrite (trunc_eq 0 0); [simpl; lra |].
  left. simpl. lra.
Qed.

(** A left particle whose projection needs no clamp. *)
Lemma projectX_left_inside g time p sx :
  Particle.side p = 0%Z ->
  finalX time p * marginWidth g * 1.2 = sx ->
  -20 <= sx <= marginWidth g + width g * 0.08 ->
  projectX g time p = sx.
Proof.
  intros Hs Hsx Hb. unfold projectX. rewrite Hs. simpl. rewrite Hsx.
  assert (Rltb sx (-20) = false) as -> by (apply Rltb_false; lra).
  assert (Rltb (marginWidth g + width g * 0.08) sx = false) as ->
    by (apply Rltb_false; lra).
  reflexivity.
Qed.

Lemma projectY_inside g time p sy :
  height g * 0.02 + finalY time p * (height g - height g * 0.02 * 2) = sy ->
  -20 <= sy <= height g + 20 ->
  projectY g time p = sy.
Proof.
  intros Hsy Hb. unfold projectY. cbv zeta. rewrite Hsy.
  assert (Rltb sy (-20) = false) as -> by (apply Rltb_false; lra).
  assert (Rltb (height g + 20) sy = false) as -> by (apply Rltb_false; lra).
  reflexivity.
Qed.

(** Far enough from the center line the mask is 1. *)
Lemma calculateOpacity_outside g s :
  0 <= marginInnerEdge g -> 0 <= fadeZone g ->
  marginInnerEdge g + fadeZone g <= centerX g - s ->
  calculateOpacity g s = 1.
Proof.
  intros Hi Hf Hs. rewrite calculateOpacity_of_distance.
  assert (Hd : distFromCenter g s = centerX g - s).
  { unfold distFromCenter. rewrite <- Rabs_Ropp.
    replace (- (s - centerX g)) with (centerX g - s) by ring.
    apply Rabs_pos_eq. lra. }
  rewrite Hd.
  assert (Rltb (centerX g - s) (marginInnerEdge g) = false) as ->
    by (apply Rltb_false; lra).
  assert (Rltb (centerX g - s - marginInnerEdge g) (fadeZone g) = false) as ->
    by (apply Rltb_false; lra).
  reflexivity.
Qed.

(** The projection of a left particle with noise seeds 0 at simulation
    time 0 on the surface 1000 x 0, from the x its Euler step gives. *)
Lemma hand_projection p time x' :
  Particle.side p = 0%Z ->
  Particle.noiseSeedX p = 0 -> Particle.noiseSeedY p = 0 ->
  time = 0 -> Particle.x p = x' -> -25 <= x' <= 50 ->
  let p' := projectToScreen (initCanvas 1000 0) time p in
  Particle.screenX p' = x' * 2.304 + 69.12 /\
  Particle.screenY p' = 0 /\
  Particle.side p' = 0%Z /\
  calculateOpacity (initCanvas 1000 0) (Particle.screenX p') = 1.
Proof.
  intros Hs Hsx Hsy Ht Hx Hb p'.
  assert (HX : Particle.screenX p' = x' * 2.304 + 69.12).
  { unfold p', projectToScreen. cbn [Particle.screenX Particle.setScreen].
    apply projectX_left_inside; [exact Hs | |].
    - unfold finalX, blendedX, normX, noiseX.
      rewrite (rem1_zero _ Hsx), (smoothNoise_origin _ _ _)
        by (rewrite ?Hsx, ?Hsy; lra).
      rewrite Hx. unfold initCanvas, CONFIG.marginPercent. simpl. lra.
    - unfold initCanvas, CONFIG.marginPercent. simpl. lra. }
  assert (HY : Particle.screenY p' = 0).
  { unfold p', projectToScreen. cbn [Particle.screenY Particle.setScreen].
    apply projectY_inside; unfold initCanvas; simpl; lra. }
  split; [exact HX |]. split; [exact HY |]. split; [exact Hs |].
  rewrite HX. apply calculateOpacity_outside;
    unfold initCanvas, CONFIG.marginPercent, CONFIG.fadeZonePercent; simpl;
    lra.
Qed.

End HandFrame.

(** The first loop of the frame on the two particles, the second one at
    x = y = c. *)
Lemma hand_frame_state (random : nat -> R) (c : R) :
  (0 <= c <= 35)%R ->
  let pA := Particle.mk 0 0 27 0 0 0 0 1 1 grey 0 1 in
  let pB := Particle.mk c c 27 0 0 0 0 1 1 grey 0 1 in
  exists pA' pB',
    updateParticles random (initCanvas 1000 0)
                    (-0.0006 + CONFIG.noiseSpeed)%R 0 [pA; pB]
                    [0%R; 0%R] 0
    = ([pA'; pB'], [1%R; 1%R], 0%nat) /\
    (Particle.screenX pA' = 69.12 /\ Particle.screenY pA' = 0 /\
     Particle.screenX pB' = c * 2.304 + 69.12 /\ Particle.screenY pB' = 0)%R /\
    Particle.side pA' = 0%Z /\ Particle.side pB' = 0%Z /\
    (screenDistance pA' pB' = c * 2.304)%R.
Proof.
  intros Hc pA pB.
  assert (HA : updateLorenz random pA 0 = (eulerStep pA, 0%nat)).
  { unfold updateLorenz.
    assert (outOfBounds (eulerStep pA) = false) as ->; [| done].
    apply outOfBounds_false. unfold inBounds, eulerStep, pA. simpl. lra. }
  assert (HB : updateLorenz random pB 0 = (eulerStep pB, 0%nat)).
  { unfold updateLorenz.
    assert (outOfBounds (eulerStep pB) = false) as ->; [| done].
    apply outOfBounds_false. unfold inBounds, eulerStep, pB. simpl.
    assert (0 <= c * c <= 1225)%R by nra. lra. }
  cbn [updateParticles]. rewrite HA. cbv beta iota zeta.
  rewrite HB. cbv beta iota zeta.
  set (time' := (-0.0006 + CONFIG.noiseSpeed)%R).
  assert (Ht : time' = 0%R) by (unfold time', CONFIG.noiseSpeed; lra).
  set (pA' := projectToScreen (initCanvas 1000 0) time' (eulerStep pA)).
  set (pB' := projectToScreen (initCanvas 1000 0) time' (eulerStep pB)).
  destruct (hand_projection (eulerStep pA) time' 0 eq_refl eq_refl eq_refl Ht)
    as (XA & YA & SA & OA);
    [unfold eulerStep, pA; simpl; lra | lra |].
  destruct (hand_projection (eulerStep pB) time' c eq_refl eq_refl eq_refl Ht)
    as (XB & YB & SB & OB);
    [unfold eulerStep, pB; simpl; lra | lra |].
  fold pA' in XA, YA, SA, OA. fold pB' in XB, YB, SB, OB.
  exists pA', pB'. split.
  - change (<[1%nat := calculateOpacity (initCanvas 1000 0)
                         (Particle.screenX pB')]>
              (<[0%nat := calculateOpacity (initCanvas 1000 0)
                            (Particle.screenX pA')]> [0%R; 0%R]))
      with [calculateOpacity (initCanvas 1000 0) (Particle.screenX pA');
            calculateOpacity (initCanvas 1000 0) (Particle.screenX pB')].
    by rewrite OA, OB.
  - split; [repeat split; try done; lra |].
    split; [exact SA |]. split; [exact SB |].
    unfold screenDistance, distSq. cbv zeta. rewrite XA, YA, XB, YB.
    replace ((c * 2.304 + 69.12 - (0 * 2.304 + 69.12))
             * (c * 2.304 + 69.12 - (0 * 2.304 + 69.12))
             + (0 - 0) * (0 - 0))%R
      with ((c * 2.304) * (c * 2.304))%R by lra.
    apply sqrt_square. lra.
Qed.

(** The same frame with the second particle at x = y = 625/18: the
    screen positions are 80 apart and the frame strokes nothing. *)
Example hand_frame_apart :
  let pA := Particle.mk 0 0 27 0 0 0 0 1 1 grey 0 1 in
  let pB := Particle.mk (625 / 18) (625 / 18) 27 0 0 0 0 1 1 grey 0 1 in
  let st := mkState [pA; pB] [0%R; 0%R] (initCanvas 1000 0) true (-0.0006)
                    None ∅ 0 0 in
  exists st' p1 p2 ,
    render (fun _ => (1 / 2)%R) st (Some 16%R)
    = Some (st', [FillRect 0.03 0 0 1000 0;
                  drawParticle p1 1; drawParticle p2 1]) /\
    particles st' = [p1; p2] /\ screenDistance p1 p2 = 80%R.
Proof.
  intros pA pB st. set (random := fun _ : nat => (1 / 2)%R).
  destruct (render_cases random st (Some 16%R))
    as [[He _] | [_ (ps & ops & k & lines & Hu & Hl & Hr)]];
    [discriminate He |].
  destruct (hand_frame_state random (625 / 18))
    as (pA' & pB' & Hstep & (XA & YA & XB & YB) & SA & SB & Hd); [lra |].
  unfold st, pA, pB in Hu.
  cbn [particles opacities canvas time cursor] in Hu.
  rewrite Hstep in Hu. injection Hu as <- <- <-.
  assert (Hd' : screenDistance pA' pB' = 80%R) by (rewrite Hd; lra).
  destruct drawConnections_lines as (_ & _ & H80).
  rewrite (H80 pA' pB' SA SB Hd') in Hl. injection Hl as <-.
  rewrite Hr. eexists _, pA', pB'.
  assert (Hvis : Rltb 0.01 1 = true) by (apply Rltb_true; lra).
  split.
  - simpl. rewrite Hvis. reflexivity.
  - split; [reflexivity | exact Hd'].
Qed.

Section HandFrameWitness.
Local Open Scope R_scope.

Lemma render_strokes_exactly_witness :
  let pA := Particle.mk 0 0 27 0 0 0 0 1 1 grey 0 1 in
  let pB := Particle.mk (625 / 144) (625 / 144) 27 0 0 0 0 1 1 grey 0 1 in
  let st := mkState [pA; pB] [0; 0] (initCanvas 1000 0) true (-0.0006)
                    None ∅ 0 0 in
  isVisible st = true /\
  (forall c l, Some 16 = Some c -> lastFrameTime st = Some l ->
               1000 / 30 <= c - l) /\
  exists st' images,
    render (fun _ => 1 / 2) st (Some 16)
    = Some (st', FillRect 0.03 0 0 1000 0
                   :: [Stroke (3 / 14) 69.12 0 79.12 0] ++ images) /\
    forall c, In c images -> exists s a x y w h, c = DrawImage s a x y w h.
Proof.
  intros pA pB st.
  set (random := fun _ : nat => 1 / 2).
  assert (Hlate : forall c l, Some 16 = Some c -> lastFrameTime st = Some l ->
                              1000 / 30 <= c - l) by (intros c l _ [=]).
  split; [reflexivity |]. split; [exact Hlate |].
  destruct (render_strokes_exactly random st (Some 16) eq_refl Hlate)
    as (st' & lines & strokes & images & Hr & Himg & _ & _ & _ & Hscen).
  (* the state the frame leaves *)
  destruct (render_cases random st (Some 16))
    as [[He _] | [_ (ps & ops & k & lines0 & Hu & _ & Hr0)]];
    [discriminate He |].
  pose proof Hr as Hr'. rewrite Hr0 in Hr'. injection Hr' as Hst _.
  destruct (hand_frame_state random (625 / 144))
    as (pA' & pB' & Hstep & (XA & YA & XB & YB) & SA & SB & Hd); [lra |].
  unfold st, pA, pB in Hu.
  cbn [particles opacities canvas time cursor] in Hu.
  rewrite Hstep in Hu. injection Hu as <- <- <-.
  destruct (Hscen pA' pB') as [H10 _];
    [by rewrite <- Hst | by rewrite <- Hst | exact SA | exact SB |].
  rewrite H10 in Hr by (rewrite Hd; lra).
  exists st', images. split; [| exact Himg].
  rewrite Hr, XA, YA, XB, YB.
  assert (E2 : 625 / 144 * 2.304 + 69.12 = 79.12) by lra.
  rewrite E2. reflexivity.
Defined.

End HandFrameWitness.
